(** * Structured errors of common-pkg-svc (package [errors])

    A shallow embedding of the Go package [errors] of the repository
    (taxonomy of codes and kinds, the [AppError] value, the chain
    helpers [Wrap], [RootCause], [MultiError], the specialised variants
    and the public-message extraction), followed by the properties the
    specification states about them.  The packages [converter], [config]
    and [respond] of the repository follow, each with its properties.

    Conventions of the embedding.
    - A Go [string] is a Rocq [string] (a sequence of bytes); the named
      string types [Kind], [Code] and [LogLevel] are strings as well.
    - A Go [map[string]any] is a [gmap string any]; a nil map and an
      empty map are both [∅] (the code only ever tests [len] and [nil]
      to allocate).  The values of [any] are the JSON-like ones.
    - An [error] interface value is [option error]: [None] is the nil
      interface, [Some x] a non-nil error.  Every error of the package is
      a pointer; a pointer is identified with the value it points to, so
      Go's [==] on two errors holds in the model whenever it holds in Go.
      Nil pointers inside a non-nil interface are left out, and so are
      foreign errors that cannot be compared or that bring [Is] or [As]
      methods of their own.
    - Errors are finite trees: a cause chain cannot loop.
    - [time.Now] and [debug.Stack] are read from an explicit environment;
      a [Time] is kept by its UTC calendar fields.
    - [errors.Is], [errors.As], [errors.Join] and the RFC 3339 layout of
      [time] follow the documentation of the standard library;
      [encoding/json] is a parameter of the section that embeds
      [MarshalJSON] and [UnmarshalJSON].
    - [strings.ToLower], [strings.ToUpper] and [strings.TrimSpace] are
      embedded on ASCII text, where they work byte by byte.  Beyond ASCII
      Go decodes runes and uses the tables of Unicode, which are not
      embedded: a statement that depends on them for a key or a text
      the caller chooses says that it is ASCII, and the lines of a stack
      trace are taken not to start or end in white space beyond ASCII. *)

From Stdlib Require Import Ascii String DecimalString DecimalN DecimalPos.
From stdpp Require Import gmap strings list fin_maps.

Set Warnings "-register-all".
Open Scope string_scope.

(** ** Go values held in [any] *)

(** The dynamic values the package stores in metadata and hands to the
    JSON encoder: nil, booleans, numbers, strings, slices and string-keyed
    maps. *)
Inductive any : Type :=
| ANil
| ABool (b : bool)
| ANum (n : Z)
| AStr (s : string)
| ASlice (l : list any)
| AMap (m : gmap string any).

#[global] Instance any_eq_dec : EqDecision any.
Proof.
  refine (fix go (x y : any) {struct x} : Decision (x = y) :=
    let _ : EqDecision any := @go in
    match x, y with
    | ANil, ANil => left _
    | ABool a, ABool b => cast_if (decide (a = b))
    | ANum a, ANum b => cast_if (decide (a = b))
    | AStr a, AStr b => cast_if (decide (a = b))
    | ASlice a, ASlice b => cast_if (decide (a = b))
    | AMap a, AMap b => cast_if (decide (a = b))
    | _, _ => right _
    end); abstract congruence.
Defined.

(** ** [time.Time]

    An instant is kept by its UTC calendar fields; the zone a [Time] of Go
    carries besides is left out, so that two values are equal here when
    [Time.Equal] holds of them in Go.  The zero [Time] of Go is January 1,
    year 1, 00:00:00.000000000 UTC. *)
Record Time : Type := mkTime {
  t_year : N;
  t_month : N;
  t_day : N;
  t_hour : N;
  t_minute : N;
  t_second : N;
  t_nsec : N }.

#[global] Instance Time_eq_dec : EqDecision Time.
Proof. solve_decision. Defined.

Definition zeroTime : Time := mkTime 1 1 1 0 0 0 0.

(** [Time.IsZero]: the instant is the zero instant. *)
Definition IsZero (t : Time) : bool := bool_decide (t = zeroTime).

Definition isLeap (y : N) : bool :=
  N.eqb (y mod 4) 0 && (negb (N.eqb (y mod 100) 0) || N.eqb (y mod 400) 0).

Definition daysIn (m y : N) : N :=
  match m with
  | 2 => if isLeap y then 29 else 28
  | 4 | 6 | 9 | 11 => 30
  | _ => 31
  end%N.

(** The calendar fields denote a date and a time of day. *)
Definition valid_civil (y mo d h mi s : N) : bool :=
  N.leb 1 mo && N.leb mo 12 && N.leb 1 d && N.leb d (daysIn mo y)
  && N.ltb h 24 && N.ltb mi 60 && N.ltb s 60.



(** *** Formatting and parsing, layout [time.RFC3339] *)

Definition itoa (n : N) : string := NilZero.string_of_uint (N.to_uint n).

Fixpoint zeros (n : nat) : string :=
  match n with
  | O => ""
  | S n' => String "0"%char (zeros n')
  end.

(** [appendInt]: decimal digits of [x], zero-padded on the left to [width]. *)
Definition appendInt (x : N) (width : nat) : string :=
  zeros (width - String.length (itoa x)) +:+ itoa x.

(** [t.Format(time.RFC3339)] of a UTC time: [2006-01-02T15:04:05Z].  A
    time in another zone is written by Go with the offset of the zone, and
    read back to the same instant. *)
Definition Format_RFC3339 (t : Time) : string :=
  appendInt (t_year t) 4 +:+ "-" +:+ appendInt (t_month t) 2 +:+ "-"
  +:+ appendInt (t_day t) 2 +:+ "T" +:+ appendInt (t_hour t) 2 +:+ ":"
  +:+ appendInt (t_minute t) 2 +:+ ":" +:+ appendInt (t_second t) 2 +:+ "Z".

Definition digit_val (c : ascii) : option N :=
  let n := N_of_ascii c in
  if N.leb 48 n && N.leb n 57 then Some (n - 48)%N else None.

(** Read exactly [n] decimal digits off the front of [s]; [acc] is the
    value read so far. *)
Fixpoint take_digits (n : nat) (acc : N) (s : string) : option (N * string) :=
  match n with
  | O => Some (acc, s)
  | S n' =>
      match s with
      | String c rest =>
          match digit_val c with
          | Some d => take_digits n' (10 * acc + d)%N rest
          | None => None
          end
      | EmptyString => None
      end
  end.

(** Read the byte [c] off the front of [s]. *)
Definition expect (c : ascii) (s : string) : option string :=
  match s with
  | String c' rest => if bool_decide (c = c') then Some rest else None
  | EmptyString => None
  end.

(** [time.Parse(time.RFC3339, s)] on the UTC form written by
    [Format_RFC3339]; [None] is a parse error.  Numeric zone offsets and
    fractional seconds, which Go also reads, are not part of the model. *)
Definition Parse_RFC3339 (s : string) : option Time :=
  '(y, s) ← take_digits 4 0 s;
  s ← expect "-"%char s;
  '(mo, s) ← take_digits 2 0 s;
  s ← expect "-"%char s;
  '(d, s) ← take_digits 2 0 s;
  s ← expect "T"%char s;
  '(h, s) ← take_digits 2 0 s;
  s ← expect ":"%char s;
  '(mi, s) ← take_digits 2 0 s;
  s ← expect ":"%char s;
  '(sec, s) ← take_digits 2 0 s;
  s ← expect "Z"%char s;
  if bool_decide (s = "") && valid_civil y mo d h mi sec
  then Some (mkTime y mo d h mi sec 0)
  else None.

(** ** The error values

    [AppErrorOf E] is the struct [AppError] with [E] the type of errors,
    so that [Cause] can hold any error; the variants embed it by value. *)
Record AppErrorOf (E : Type) : Type := mkAppError {
  Code : string;
  Kind : string;
  InternalMsg : string;
  UserMsg : string;
  Cause : option E;
  stackTrace : string;
  TraceID : string;
  RequestID : string;
  Timestamp : Time;
  Retryable : bool;
  Timeout : bool;
  Metadata : gmap string any }.
Arguments mkAppError {E}.
Arguments Code {E}.
Arguments Kind {E}.
Arguments InternalMsg {E}.
Arguments UserMsg {E}.
Arguments Cause {E}.
Arguments stackTrace {E}.
Arguments TraceID {E}.
Arguments RequestID {E}.
Arguments Timestamp {E}.
Arguments Retryable {E}.
Arguments Timeout {E}.
Arguments Metadata {E}.

Record wrapErrorOf (E : Type) : Type := mkwrapError {
  msg : string;
  cause : option E }.
Arguments mkwrapError {E}.
Arguments msg {E}.
Arguments cause {E}.

Record LimitErrorOf (E : Type) : Type := mkLimitError {
  LimitError_AppError : AppErrorOf E;
  Remaining : Z;
  Reset : Time }.
Arguments mkLimitError {E}.
Arguments LimitError_AppError {E}.
Arguments Remaining {E}.
Arguments Reset {E}.

Record RBACErrorOf (E : Type) : Type := mkRBACError {
  RBACError_AppError : AppErrorOf E;
  Role : string;
  Action : string;
  Resource : string }.
Arguments mkRBACError {E}.
Arguments RBACError_AppError {E}.
Arguments Role {E}.
Arguments Action {E}.
Arguments Resource {E}.

Record FieldErrorOf (E : Type) : Type := mkFieldError {
  FieldError_AppError : AppErrorOf E;
  Field : string;
  Reason : string }.
Arguments mkFieldError {E}.
Arguments FieldError_AppError {E}.
Arguments Field {E}.
Arguments Reason {E}.

Record TimeoutErrorOf (E : Type) : Type := mkTimeoutError {
  TimeoutError_AppError : AppErrorOf E;
  Deadline : Time }.
Arguments mkTimeoutError {E}.
Arguments TimeoutError_AppError {E}.
Arguments Deadline {E}.

(** The dynamic type and value behind a non-nil [error].  The first six
    are the pointer types of the package; [Err_joinError] is what
    [errors.Join] returns (it has [Unwrap() []error]); [Err_foreign] is any
    other error: its text, and what its [Unwrap() error] method returns
    when it has one ([None]: no such method). *)
Inductive error : Type :=
| Err_AppError (e : AppErrorOf error)
| Err_wrapError (w : wrapErrorOf error)
| Err_LimitError (le : LimitErrorOf error)
| Err_RBACError (re : RBACErrorOf error)
| Err_FieldError (fe : FieldErrorOf error)
| Err_TimeoutError (te : TimeoutErrorOf error)
| Err_joinError (errs : list error)
| Err_foreign (text : string) (unwrapper : option (option error)).

Abbreviation AppError := (AppErrorOf error).
Abbreviation wrapError := (wrapErrorOf error).
Abbreviation LimitError := (LimitErrorOf error).
Abbreviation RBACError := (RBACErrorOf error).
Abbreviation FieldError := (FieldErrorOf error).
Abbreviation TimeoutError := (TimeoutErrorOf error).

#[global] Instance AppErrorOf_eq_dec {E} `{EqDecision E} : EqDecision (AppErrorOf E).
Proof. solve_decision. Defined.
#[global] Instance wrapErrorOf_eq_dec {E} `{EqDecision E} : EqDecision (wrapErrorOf E).
Proof. solve_decision. Defined.
#[global] Instance LimitErrorOf_eq_dec {E} `{EqDecision E} : EqDecision (LimitErrorOf E).
Proof. solve_decision. Defined.
#[global] Instance RBACErrorOf_eq_dec {E} `{EqDecision E} : EqDecision (RBACErrorOf E).
Proof. solve_decision. Defined.
#[global] Instance FieldErrorOf_eq_dec {E} `{EqDecision E} : EqDecision (FieldErrorOf E).
Proof. solve_decision. Defined.
#[global] Instance TimeoutErrorOf_eq_dec {E} `{EqDecision E} : EqDecision (TimeoutErrorOf E).
Proof. solve_decision. Defined.

(** Go's [==] on two non-nil errors. *)
#[global] Instance error_eq_dec : EqDecision error.
Proof.
  refine (fix go (x y : error) {struct x} : Decision (x = y) :=
    let _ : EqDecision error := @go in
    match x, y with
    | Err_AppError a, Err_AppError b => cast_if (decide (a = b))
    | Err_wrapError a, Err_wrapError b => cast_if (decide (a = b))
    | Err_LimitError a, Err_LimitError b => cast_if (decide (a = b))
    | Err_RBACError a, Err_RBACError b => cast_if (decide (a = b))
    | Err_FieldError a, Err_FieldError b => cast_if (decide (a = b))
    | Err_TimeoutError a, Err_TimeoutError b => cast_if (decide (a = b))
    | Err_joinError a, Err_joinError b => cast_if (decide (a = b))
    | Err_foreign t1 u1, Err_foreign t2 u2 =>
        cast_if_and (decide (t1 = t2)) (decide (u1 = u2))
    | _, _ => right _
    end); abstract congruence.
Defined.

(** ** Taxonomy *)

Definition KindValidation : string := "validation".
Definition KindNetwork : string := "network".
Definition KindTimeout : string := "timeout".
Definition KindNotFound : string := "not_found".
Definition KindConflict : string := "conflict".
Definition KindForbidden : string := "forbidden".
Definition KindInternal : string := "internal".
Definition KindRateLimit : string := "rate_limit".
Definition KindAuth : string := "auth".
Definition KindUnauthorized : string := "unauthorized".
Definition KindOther : string := "other".

Definition CodeInvalidInput : string := "INVALID_INPUT".
Definition CodeNotFound : string := "NOT_FOUND".
Definition CodeConflict : string := "CONFLICT".
Definition CodeTimeout : string := "TIMEOUT".
Definition CodeRateLimited : string := "RATE_LIMITED".
Definition CodePermissionDenied : string := "PERMISSION_DENIED".
Definition CodeValidation : string := "VALIDATION".
Definition CodeVideoDecodeFail : string := "VIDEO_DECODE_FAIL".
Definition CodeNetwork : string := "NETWORK".
Definition CodeInternal : string := "INTERNAL".
Definition CodeUnauthorized : string := "UNAUTHORIZED".

Definition LogDebug : string := "debug".
Definition LogInfo : string := "info".
Definition LogWarn : string := "warn".
Definition LogError : string := "error".

(** The enumerated kinds, as the [const] block lists them. *)
Definition all_kinds : list string :=
  [KindValidation; KindNetwork; KindTimeout; KindNotFound; KindConflict;
   KindForbidden; KindInternal; KindRateLimit; KindAuth; KindUnauthorized;
   KindOther].

(** The codes of the [const] block. *)
Definition all_codes : list string :=
  [CodeInvalidInput; CodeNotFound; CodeConflict; CodeTimeout; CodeRateLimited;
   CodePermissionDenied; CodeValidation; CodeVideoDecodeFail; CodeNetwork;
   CodeInternal; CodeUnauthorized].

(** A [switch] case with several values. *)
Fixpoint one_of (x : string) (cases : list string) : bool :=
  match cases with
  | [] => false
  | c :: cs => (x =? c) || one_of x cs
  end.

Definition kindToHTTPStatus (k : string) : Z :=
  if one_of k [KindValidation] then 400
  else if one_of k [KindAuth; KindForbidden] then 403
  else if one_of k [KindUnauthorized] then 401
  else if one_of k [KindNotFound] then 404
  else if one_of k [KindConflict] then 409
  else if one_of k [KindTimeout] then 408
  else if one_of k [KindRateLimit] then 429
  else if one_of k [KindNetwork; KindInternal; KindOther] then 500
  else 500.

Definition codeToKind (c : string) : string :=
  if one_of c [CodeInvalidInput; CodeValidation] then KindValidation
  else if one_of c [CodeNotFound] then KindNotFound
  else if one_of c [CodeConflict] then KindConflict
  else if one_of c [CodeTimeout] then KindTimeout
  else if one_of c [CodeRateLimited] then KindRateLimit
  else if one_of c [CodePermissionDenied; CodeUnauthorized] then KindAuth
  else if one_of c [CodeNetwork] then KindNetwork
  else if one_of c [CodeInternal; CodeVideoDecodeFail] then KindInternal
  else KindOther.

(** ** Methods of [AppError] *)

Section AppErrorMethods.
Context {E : Type}.
Implicit Types e : AppErrorOf E.

(** Method [Error] of [AppError]. *)
Definition AppError_Error e : string :=
  if negb (InternalMsg e =? "") then InternalMsg e
  else if negb (UserMsg e =? "") then UserMsg e
  else Code e.

Definition HTTPStatus e : Z := kindToHTTPStatus (Kind e).

Definition ErrorKind e : string := Kind e.

Definition IsRetryable_method e : bool := Retryable e.

Definition IsTimeout e : bool := Timeout e || (Kind e =? KindTimeout).

Definition LogLevel e : string :=
  if one_of (Kind e) [KindValidation; KindNotFound] then LogWarn
  else if one_of (Kind e) [KindForbidden; KindAuth; KindRateLimit] then LogWarn
  else if one_of (Kind e) [KindTimeout; KindNetwork] then LogWarn
  else if one_of (Kind e) [KindInternal; KindConflict; KindOther] then LogError
  else LogError.

(** Assignments to single fields of the struct. *)
Definition set_Code (v : string) e : AppErrorOf E :=
  mkAppError v (Kind e) (InternalMsg e) (UserMsg e) (Cause e) (stackTrace e)
    (TraceID e) (RequestID e) (Timestamp e) (Retryable e) (Timeout e) (Metadata e).
Definition set_Kind (v : string) e : AppErrorOf E :=
  mkAppError (Code e) v (InternalMsg e) (UserMsg e) (Cause e) (stackTrace e)
    (TraceID e) (RequestID e) (Timestamp e) (Retryable e) (Timeout e) (Metadata e).
Definition set_InternalMsg (v : string) e : AppErrorOf E :=
  mkAppError (Code e) (Kind e) v (UserMsg e) (Cause e) (stackTrace e)
    (TraceID e) (RequestID e) (Timestamp e) (Retryable e) (Timeout e) (Metadata e).
Definition set_UserMsg (v : string) e : AppErrorOf E :=
  mkAppError (Code e) (Kind e) (InternalMsg e) v (Cause e) (stackTrace e)
    (TraceID e) (RequestID e) (Timestamp e) (Retryable e) (Timeout e) (Metadata e).
Definition set_Cause (v : option E) e : AppErrorOf E :=
  mkAppError (Code e) (Kind e) (InternalMsg e) (UserMsg e) v (stackTrace e)
    (TraceID e) (RequestID e) (Timestamp e) (Retryable e) (Timeout e) (Metadata e).
Definition set_stackTrace (v : string) e : AppErrorOf E :=
  mkAppError (Code e) (Kind e) (InternalMsg e) (UserMsg e) (Cause e) v
    (TraceID e) (RequestID e) (Timestamp e) (Retryable e) (Timeout e) (Metadata e).
Definition set_TraceID (v : string) e : AppErrorOf E :=
  mkAppError (Code e) (Kind e) (InternalMsg e) (UserMsg e) (Cause e) (stackTrace e)
    v (RequestID e) (Timestamp e) (Retryable e) (Timeout e) (Metadata e).
Definition set_RequestID (v : string) e : AppErrorOf E :=
  mkAppError (Code e) (Kind e) (InternalMsg e) (UserMsg e) (Cause e) (stackTrace e)
    (TraceID e) v (Timestamp e) (Retryable e) (Timeout e) (Metadata e).
Definition set_Timestamp (v : Time) e : AppErrorOf E :=
  mkAppError (Code e) (Kind e) (InternalMsg e) (UserMsg e) (Cause e) (stackTrace e)
    (TraceID e) (RequestID e) v (Retryable e) (Timeout e) (Metadata e).
Definition set_Retryable (v : bool) e : AppErrorOf E :=
  mkAppError (Code e) (Kind e) (InternalMsg e) (UserMsg e) (Cause e) (stackTrace e)
    (TraceID e) (RequestID e) (Timestamp e) v (Timeout e) (Metadata e).
Definition set_Timeout (v : bool) e : AppErrorOf E :=
  mkAppError (Code e) (Kind e) (InternalMsg e) (UserMsg e) (Cause e) (stackTrace e)
    (TraceID e) (RequestID e) (Timestamp e) (Retryable e) v (Metadata e).
Definition set_Metadata (v : gmap string any) e : AppErrorOf E :=
  mkAppError (Code e) (Kind e) (InternalMsg e) (UserMsg e) (Cause e) (stackTrace e)
    (TraceID e) (RequestID e) (Timestamp e) (Retryable e) (Timeout e) v.

(** The zero value of the struct, as [var e AppError] declares it. *)
Definition zeroAppError : AppErrorOf E :=
  mkAppError "" "" "" "" None "" "" "" zeroTime false false ∅.

End AppErrorMethods.

(** ** Construction *)

(** What [New] reads from the runtime: the clock and the goroutine's
    stack dump. *)
Record Env : Type := mkEnv {
  time_Now : Time;
  debug_Stack : string }.

(** The function type [Option]: an option updates the error under
    construction, through the pointer it is given. *)
Definition Option : Type := AppError → AppError.

Definition WithCause (c : option error) : Option := fun e => set_Cause c e.
Definition WithKind (k : string) : Option := fun e => set_Kind k e.
Definition WithTraceID (id : string) : Option := fun e => set_TraceID id e.
Definition WithRequestID (id : string) : Option := fun e => set_RequestID id e.
Definition WithRetryable (retryable : bool) : Option := fun e => set_Retryable retryable e.
Definition WithTimeout (isTimeout : bool) : Option := fun e => set_Timeout isTimeout e.

(** [for k, v := range m { e.Metadata[k] = v }] *)
Definition WithMetadata (m : gmap string any) : Option := fun e =>
  set_Metadata (map_fold (fun k v acc => <[k := v]> acc) (Metadata e) m) e.

(** [for _, o := range opts { o(e) }] *)
Definition apply_options (opts : list Option) (e : AppError) : AppError :=
  foldl (fun e o => o e) e opts.

Definition New (env : Env) (code internalMsg userMsg : string) (opts : list Option)
  : AppError :=
  let e := mkAppError code (codeToKind code) internalMsg userMsg None ""
             "" "" (time_Now env) false false ∅ in
  let e := if userMsg =? "" then set_UserMsg internalMsg e else e in
  let e := set_stackTrace (debug_Stack env) e in
  apply_options opts e.

Definition NewSentinel (code msg kind : string) : AppError :=
  mkAppError code kind msg msg None "" "" "" zeroTime false false ∅.

Definition ErrInvalidInput := NewSentinel CodeInvalidInput "invalid input" KindValidation.
Definition ErrNotFound := NewSentinel CodeNotFound "resource not found" KindNotFound.
Definition ErrConflict := NewSentinel CodeConflict "resource conflict" KindConflict.
Definition ErrTimeout := NewSentinel CodeTimeout "operation timed out" KindTimeout.
Definition ErrRateLimited := NewSentinel CodeRateLimited "rate limit exceeded" KindRateLimit.
Definition ErrForbidden := NewSentinel CodePermissionDenied "permission denied" KindForbidden.
Definition ErrUnauthorized := NewSentinel CodeUnauthorized "unauthorized" KindUnauthorized.
Definition ErrInternal := NewSentinel CodeInternal "internal error" KindInternal.
Definition ErrNetwork := NewSentinel CodeNetwork "network error" KindNetwork.

(** *** Variants *)

Definition NewLimitError (env : Env) (remaining : Z) (reset : Time) (opts : list Option)
  : LimitError :=
  let e := New env CodeRateLimited "rate limit exceeded" "rate limit exceeded" opts in
  let e := set_Kind KindRateLimit e in
  mkLimitError e remaining reset.

Definition NewRBACError (env : Env) (role action resource : string) (opts : list Option)
  : RBACError :=
  let e := New env CodePermissionDenied
             ("permission denied: " +:+ role +:+ " cannot " +:+ action +:+ " on " +:+ resource)
             "permission denied" opts in
  let e := set_Kind KindForbidden e in
  mkRBACError e role action resource.

(** [FieldErrorf]; [reason] is the result of [fmt.Sprintf(format, args...)]. *)
Definition FieldErrorf (env : Env) (field reason : string) : FieldError :=
  let e := New env CodeValidation
             ("field " +:+ field +:+ ": " +:+ reason)
             ("invalid " +:+ field +:+ ": " +:+ reason) [] in
  let e := set_Kind KindValidation e in
  mkFieldError e field reason.

Definition NewTimeoutError (env : Env) (deadline : Time) (opts : list Option)
  : TimeoutError :=
  let e := New env CodeTimeout "operation timed out" "request timed out"
             (opts ++ [WithTimeout true; WithRetryable true]) in
  let e := set_Kind KindTimeout e in
  mkTimeoutError e deadline.

(** ** The error interface *)

(** The [AppError] a value of one of the package's struct types holds or
    embeds. *)
Definition embedded_AppError (err : error) : option AppError :=
  match err with
  | Err_AppError e => Some e
  | Err_LimitError le => Some (LimitError_AppError le)
  | Err_RBACError re => Some (RBACError_AppError re)
  | Err_FieldError fe => Some (FieldError_AppError fe)
  | Err_TimeoutError te => Some (TimeoutError_AppError te)
  | _ => None
  end.

(** The type assertion [err.(interface{ Unwrap() error })] followed by the
    call [u.Unwrap()]: [None] when the dynamic type has no such method,
    else [Some] of the error (or nil) the call returns.  The variants get
    the method of the embedded [AppError]; a joined error has
    [Unwrap() []error] only. *)
Definition Unwrap_method (err : error) : option (option error) :=
  match err with
  | Err_AppError e => Some (Cause e)
  | Err_wrapError w => Some (cause w)
  | Err_LimitError le => Some (Cause (LimitError_AppError le))
  | Err_RBACError re => Some (Cause (RBACError_AppError re))
  | Err_FieldError fe => Some (Cause (FieldError_AppError fe))
  | Err_TimeoutError te => Some (Cause (TimeoutError_AppError te))
  | Err_joinError _ => None
  | Err_foreign _ u => u
  end.

Definition newline : string := String (ascii_of_nat 10) "".

(** Method [Error] of every dynamic type. *)
Fixpoint Error (err : error) : string :=
  match err with
  | Err_AppError e => AppError_Error e
  | Err_wrapError w =>
      match cause w with
      | Some c => msg w +:+ ": " +:+ Error c
      | None => msg w
      end
  | Err_LimitError le => AppError_Error (LimitError_AppError le)
  | Err_RBACError re => AppError_Error (RBACError_AppError re)
  | Err_FieldError fe => AppError_Error (FieldError_AppError fe)
  | Err_TimeoutError te => AppError_Error (TimeoutError_AppError te)
  | Err_joinError errs => String.concat newline (map Error errs)
  | Err_foreign text _ => text
  end.

(** ** Chain helpers *)

Definition Wrap (err : option error) (msg : string) : option error :=
  match err with
  | None => None
  | Some x => Some (Err_wrapError (mkwrapError msg (Some x)))
  end.

(** [errors.Unwrap] *)
Definition Unwrap (err : option error) : option error :=
  match err with
  | None => None
  | Some x =>
      match Unwrap_method x with
      | Some next => next
      | None => None
      end
  end.

(** The [for] loop of [RootCause], started on a non-nil [err]. *)
Fixpoint RootCause_loop (err : error) : error :=
  match err with
  | Err_AppError e =>
      match Cause e with Some next => RootCause_loop next | None => err end
  | Err_wrapError w =>
      match cause w with Some next => RootCause_loop next | None => err end
  | Err_LimitError le =>
      match Cause (LimitError_AppError le) with
      | Some next => RootCause_loop next | None => err end
  | Err_RBACError re =>
      match Cause (RBACError_AppError re) with
      | Some next => RootCause_loop next | None => err end
  | Err_FieldError fe =>
      match Cause (FieldError_AppError fe) with
      | Some next => RootCause_loop next | None => err end
  | Err_TimeoutError te =>
      match Cause (TimeoutError_AppError te) with
      | Some next => RootCause_loop next | None => err end
  | Err_joinError _ => err
  | Err_foreign _ (Some (Some next)) => RootCause_loop next
  | Err_foreign _ _ => err
  end.

Definition RootCause (err : option error) : option error :=
  match err with
  | None => None
  | Some x => Some (RootCause_loop x)
  end.

(** One turn of that loop, as the source writes it: assert the method,
    call it, and either go on with the next error or return. *)
Definition RootCause_step (err : error) : error + error :=
  match Unwrap_method err with
  | Some (Some next) => inl next
  | _ => inr err
  end.

(** The loop run for at most [fuel] turns; [None] when the turns run out. *)
Fixpoint RootCause_iter (fuel : nat) (err : error) : option error :=
  match fuel with
  | O => None
  | S fuel' =>
      match RootCause_step err with
      | inl next => RootCause_iter fuel' next
      | inr r => Some r
      end
  end.

(** The number of errors on the chain that starts at [err]. *)
Fixpoint chain_length (err : error) : nat :=
  match err with
  | Err_AppError e =>
      match Cause e with Some next => S (chain_length next) | None => 1 end
  | Err_wrapError w =>
      match cause w with Some next => S (chain_length next) | None => 1 end
  | Err_LimitError le =>
      match Cause (LimitError_AppError le) with
      | Some next => S (chain_length next) | None => 1 end
  | Err_RBACError re =>
      match Cause (RBACError_AppError re) with
      | Some next => S (chain_length next) | None => 1 end
  | Err_FieldError fe =>
      match Cause (FieldError_AppError fe) with
      | Some next => S (chain_length next) | None => 1 end
  | Err_TimeoutError te =>
      match Cause (TimeoutError_AppError te) with
      | Some next => S (chain_length next) | None => 1 end
  | Err_joinError _ => 1
  | Err_foreign _ (Some (Some next)) => S (chain_length next)
  | Err_foreign _ _ => 1
  end.

(** The loop of [errors.Is]: compare, then follow [Unwrap() error], or
    try every branch of [Unwrap() []error]. None of the modelled types has
    an [Is] method. *)
Fixpoint is_loop (err target : error) : bool :=
  bool_decide (err = target) ||
  match err with
  | Err_AppError e =>
      match Cause e with Some next => is_loop next target | None => false end
  | Err_wrapError w =>
      match cause w with Some next => is_loop next target | None => false end
  | Err_LimitError le =>
      match Cause (LimitError_AppError le) with
      | Some next => is_loop next target | None => false end
  | Err_RBACError re =>
      match Cause (RBACError_AppError re) with
      | Some next => is_loop next target | None => false end
  | Err_FieldError fe =>
      match Cause (FieldError_AppError fe) with
      | Some next => is_loop next target | None => false end
  | Err_TimeoutError te =>
      match Cause (TimeoutError_AppError te) with
      | Some next => is_loop next target | None => false end
  | Err_joinError errs => existsb (fun x => is_loop x target) errs
  | Err_foreign _ (Some (Some next)) => is_loop next target
  | Err_foreign _ _ => false
  end.

(** [Is], that is [errors.Is]. *)
Definition Is (err target : option error) : bool :=
  match err, target with
  | Some x, Some t => is_loop x t
  | None, None => true
  | _, _ => false
  end.

(** The non-nil errors of [errs], in order. *)
Fixpoint nonNil (errs : list (option error)) : list error :=
  match errs with
  | [] => []
  | Some e :: rest => e :: nonNil rest
  | None :: rest => nonNil rest
  end.

Definition MultiError (errs : list (option error)) : option error :=
  match nonNil errs with
  | [] => None
  | [e] => Some e
  | l => Some (Err_joinError l)
  end.

(** [NewFromError] *)
Definition NewFromError (env : Env) (err : option error) (code userMsg : string)
  : option AppError :=
  match err with
  | None => None
  | Some (Err_AppError ae) => Some ae
  | Some x => Some (New env code (Error x) userMsg [WithCause (Some x)])
  end.

(** The loop of [errors.As] for a target of type pointer to [AppError]: the
    first error of the chain, branches of a joined error taken in order,
    whose dynamic type is that pointer type. *)
Fixpoint as_AppError (err : error) : option AppError :=
  match err with
  | Err_AppError e => Some e
  | Err_wrapError w =>
      match cause w with Some next => as_AppError next | None => None end
  | Err_LimitError le =>
      match Cause (LimitError_AppError le) with
      | Some next => as_AppError next | None => None end
  | Err_RBACError re =>
      match Cause (RBACError_AppError re) with
      | Some next => as_AppError next | None => None end
  | Err_FieldError fe =>
      match Cause (FieldError_AppError fe) with
      | Some next => as_AppError next | None => None end
  | Err_TimeoutError te =>
      match Cause (TimeoutError_AppError te) with
      | Some next => as_AppError next | None => None end
  | Err_joinError errs =>
      (fix first (l : list error) : option AppError :=
         match l with
         | [] => None
         | x :: rest =>
             match as_AppError x with
             | Some found => Some found
             | None => first rest
             end
         end) errs
  | Err_foreign _ (Some (Some next)) => as_AppError next
  | Err_foreign _ _ => None
  end.

(** The same loop for a target of type pointer to [TimeoutError]. *)
Fixpoint as_TimeoutError (err : error) : option TimeoutError :=
  match err with
  | Err_TimeoutError te => Some te
  | Err_AppError e =>
      match Cause e with Some next => as_TimeoutError next | None => None end
  | Err_wrapError w =>
      match cause w with Some next => as_TimeoutError next | None => None end
  | Err_LimitError le =>
      match Cause (LimitError_AppError le) with
      | Some next => as_TimeoutError next | None => None end
  | Err_RBACError re =>
      match Cause (RBACError_AppError re) with
      | Some next => as_TimeoutError next | None => None end
  | Err_FieldError fe =>
      match Cause (FieldError_AppError fe) with
      | Some next => as_TimeoutError next | None => None end
  | Err_joinError errs =>
      (fix first (l : list error) : option TimeoutError :=
         match l with
         | [] => None
         | x :: rest =>
             match as_TimeoutError x with
             | Some found => Some found
             | None => first rest
             end
         end) errs
  | Err_foreign _ (Some (Some next)) => as_TimeoutError next
  | Err_foreign _ _ => None
  end.

(** ** Public-facing extraction *)

(** [PublicError]: the type assertions in the order of the source.  An
    [AppError] with an empty [UserMsg] fails the first test and, being of
    none of the four other types, reaches the fallback. *)
Definition PublicError (err : option error) : string :=
  match err with
  | None => ""
  | Some (Err_AppError ae) =>
      if negb (UserMsg ae =? "") then UserMsg ae else "an error occurred"
  | Some (Err_FieldError fe) => UserMsg (FieldError_AppError fe)
  | Some (Err_LimitError le) => UserMsg (LimitError_AppError le)
  | Some (Err_TimeoutError te) => UserMsg (TimeoutError_AppError te)
  | Some (Err_RBACError rbac) => UserMsg (RBACError_AppError rbac)
  | Some _ => "an error occurred"
  end.

Definition IsRetryable (err : option error) : bool :=
  match err with
  | None => false
  | Some x =>
      match as_AppError x with
      | Some ae => IsRetryable_method ae
      | None =>
          match as_TimeoutError x with
          | Some te => IsRetryable_method (TimeoutError_AppError te)
          | None => false
          end
      end
  end.

Definition IsTimeoutErr (err : option error) : bool :=
  match err with
  | None => false
  | Some x =>
      match as_AppError x with
      | Some ae => IsTimeout ae
      | None =>
          match as_TimeoutError x with
          | Some te => IsTimeout (TimeoutError_AppError te)
          | None => Is err (Some (Err_AppError ErrTimeout))
          end
      end
  end.

(** ** Redaction of metadata *)

(** [strings.ToLower], on the bytes of ASCII text: the letters A to Z are
    lowered, every other byte is kept. *)
Definition lower_ascii (c : ascii) : ascii :=
  let n := nat_of_ascii c in
  if Nat.leb 65 n && Nat.leb n 90 then ascii_of_nat (n + 32) else c.

Fixpoint ToLower (s : string) : string :=
  match s with
  | EmptyString => EmptyString
  | String c rest => String (lower_ascii c) (ToLower rest)
  end.

(** [strings.HasPrefix] *)
Fixpoint HasPrefix (s prefix : string) {struct prefix} : bool :=
  match prefix, s with
  | EmptyString, _ => true
  | String p prefix', String c s' => bool_decide (c = p) && HasPrefix s' prefix'
  | String _ _, EmptyString => false
  end.

(** [strings.Contains] *)
Fixpoint Contains (s substr : string) : bool :=
  HasPrefix s substr ||
  match s with
  | EmptyString => false
  | String _ s' => Contains s' substr
  end.

Definition pIIFields : gmap string bool :=
  list_to_map
    [("password", true); ("token", true); ("secret", true); ("email", true);
     ("ssn", true); ("credit_card", true); ("api_key", true)].

Definition isPIIField (k : string) : bool :=
  let lower := ToLower k in
  default false (pIIFields !! lower) || Contains lower "password" ||
  Contains lower "token" || Contains lower "secret".

Definition REDACTED : any := AStr "[REDACTED]".

(** [for k, v := range m { out[k] = ... }], from [out] empty. *)
Definition redactMetadata (m : gmap string any) : gmap string any :=
  map_fold (fun k v out => <[k := if isPIIField k then REDACTED else v]> out) ∅ m.

(** ** JSON *)

Section JSON.

(** [encoding/json], as far as the package uses it: [json_Marshal] encodes
    a [map[string]any]; every value of [any] has an encoding, so its error
    result is always nil.  [json_Unmarshal] decodes into a
    [map[string]any]; [None] is its error. *)
Context {bytes : Type}.
Variable json_Marshal : gmap string any → bytes.
Variable json_Unmarshal : bytes → option (gmap string any).

(** The map [m] that [MarshalJSON] builds and encodes. *)
Definition marshalMap (e : AppError) : gmap string any :=
  let m : gmap string any :=
    <["code" := AStr (Code e)]> (<["kind" := AStr (Kind e)]>
      (<["message" := AStr (UserMsg e)]> ∅)) in
  let m := if negb (TraceID e =? "") then <["trace_id" := AStr (TraceID e)]> m else m in
  let m := if negb (RequestID e =? "") then <["request_id" := AStr (RequestID e)]> m else m in
  let m := if negb (IsZero (Timestamp e))
           then <["timestamp" := AStr (Format_RFC3339 (Timestamp e))]> m else m in
  let m := if Nat.ltb 0 (size (Metadata e))
           then <["metadata" := AMap (redactMetadata (Metadata e))]> m else m in
  m.


(** The type assertions [m[key].(string)] and [m[key].(map[string]any)]. *)
Definition as_string (v : option any) : option string :=
  match v with
  | Some (AStr s) => Some s
  | _ => None
  end.

Definition as_map (v : option any) : option (gmap string any) :=
  match v with
  | Some (AMap m) => Some m
  | _ => None
  end.

(** The assignments of [UnmarshalJSON] once [data] is decoded into [m]. *)
Definition unmarshalMap (m : gmap string any) (e : AppError) : AppError :=
  let e := match as_string (m !! "code") with Some c => set_Code c e | None => e end in
  let e := match as_string (m !! "kind") with Some k => set_Kind k e | None => e end in
  let e := match as_string (m !! "message") with
           | Some msg => set_InternalMsg msg (set_UserMsg msg e)
           | None => e
           end in
  let e := match as_string (m !! "trace_id") with Some tid => set_TraceID tid e | None => e end in
  let e := match as_string (m !! "request_id") with Some rid => set_RequestID rid e | None => e end in
  let e := match as_string (m !! "timestamp") with
           | Some ts => set_Timestamp (default zeroTime (Parse_RFC3339 ts)) e
           | None => e
           end in
  let e := match as_map (m !! "metadata") with Some meta => set_Metadata meta e | None => e end in
  e.

(** [UnmarshalJSON] on receiver [e]: [None] when it returns the decoder's
    error, else the receiver after the call. *)
Definition UnmarshalJSON (data : bytes) (e : AppError) : option AppError :=
  match json_Unmarshal data with
  | None => None
  | Some m => Some (unmarshalMap m e)
  end.


End JSON.

Definition doc_Unmarshal (data : gmap string any) : option (gmap string any) := Some data.


(** ** Notions the properties are stated with *)

(** An option that leaves a field of the error as it found it. *)
Definition keeps_Kind (o : Option) : Prop := ∀ e, Kind (o e) = Kind e.
Definition keeps_UserMsg (o : Option) : Prop := ∀ e, UserMsg (o e) = UserMsg e.

(** The options the package exports. *)
Inductive package_option : Option → Prop :=
| po_WithCause c : package_option (WithCause c)
| po_WithKind k : package_option (WithKind k)
| po_WithTraceID id : package_option (WithTraceID id)
| po_WithRequestID id : package_option (WithRequestID id)
| po_WithRetryable b : package_option (WithRetryable b)
| po_WithTimeout b : package_option (WithTimeout b)
| po_WithMetadata m : package_option (WithMetadata m).

(** The chain ends at [err]: it has no [Unwrap() error] method, or the
    method returns nil. *)
Definition chain_end (err : error) : Prop :=
  Unwrap_method err = None ∨ Unwrap_method err = Some None.

(** [unwraps_to x y]: [y] is reached from [x] by calling [Unwrap] zero or
    more times, each call returning a non-nil error. *)
Inductive unwraps_to : error → error → Prop :=
| unwraps_to_refl x : unwraps_to x x
| unwraps_to_step x y z :
    Unwrap_method x = Some (Some y) → unwraps_to y z → unwraps_to x z.

(** Every byte of [s] passes the test [p]. *)
Fixpoint all_bytes (p : ascii → bool) (s : string) : bool :=
  match s with
  | EmptyString => true
  | String c rest => p c && all_bytes p rest
  end.

(** A byte of ASCII.  On texts of such bytes [strings.ToLower],
    [strings.ToUpper] and [strings.TrimSpace] work byte by byte, as they
    are embedded here; beyond ASCII Go decodes runes and uses the tables
    of Unicode, which are not embedded. *)
Definition isASCII (c : ascii) : bool := N.ltb (N_of_ascii c) 128.

(** The letters, each capital with its small letter. *)
Definition capital_letters : string := "ABCDEFGHIJKLMNOPQRSTUVWXYZ".
Definition small_letters : string := "abcdefghijklmnopqrstuvwxyz".

Definition letters : list (ascii * ascii) :=
  Eval cbv in
    zip (list_ascii_of_string capital_letters) (list_ascii_of_string small_letters).

(** Two bytes are the same but for the case of a letter: they are equal,
    or one is a capital and the other its small letter.  Two texts are the
    same but for case when they are so byte by byte. *)
Definition same_letter (c d : ascii) : Prop :=
  c = d ∨ (c, d) ∈ letters ∨ (d, c) ∈ letters.

Fixpoint same_ignoring_case (a b : string) : Prop :=
  match a, b with
  | EmptyString, EmptyString => True
  | String c a', String d b' => same_letter c d ∧ same_ignoring_case a' b'
  | _, _ => False
  end.

(** The sensitive keys, in the words of the specification: the key is one
    of seven names, or one of three words occurs in it, the case of
    letters being ignored in both. *)
Definition sensitive_names : list string :=
  ["password"; "token"; "secret"; "email"; "ssn"; "credit_card"; "api_key"].

Definition sensitive_words : list string := ["password"; "token"; "secret"].

Definition sensitive_key (k : string) : Prop :=
  (∃ n, n ∈ sensitive_names ∧ same_ignoring_case k n) ∨
  (∃ w pre mid post,
     w ∈ sensitive_words ∧ k = pre +:+ mid +:+ post ∧ same_ignoring_case mid w).


Definition json_keys : list string :=
  ["code"; "kind"; "message"; "trace_id"; "request_id"; "timestamp"; "metadata"].





(** An error with every serialised field set, for the examples. *)
Definition sample_error : AppError :=
  set_Timestamp (mkTime 2025 1 1 0 0 0 123456789)
    (New (mkEnv (mkTime 2024 2 29 23 59 59 0) "goroutine 1 [running]:")
       CodeValidation "internal" "invalid input"
       [WithTraceID "tid"; WithRequestID "rid";
        WithMetadata (<["user_id" := AStr "u1"]> ∅)]).

(** ** Proof automation *)

(** The case analysis of a cascade of [if]s. *)
Ltac case_ifs :=
  repeat match goal with
         | |- context [if ?b then _ else _] => destruct b eqn:?
         end.

(** [x ∉ l] for a list of literals, from the hypothesis that [x] is in none
    of the lists of a longer one. *)
Ltac not_listed H :=
  let Hin := fresh "Hin" in
  intros Hin; apply H; revert Hin; rewrite ?elem_of_cons, ?elem_of_nil; tauto.


(** ** Stack frames *)

Record Frame : Type := mkFrame {
  File : string;
  Line : Z;
  Func : string }.

(** [strings.Split(s, sep)] for a separator of one byte. *)
Fixpoint Split (s : string) (sep : ascii) : list string :=
  match s with
  | EmptyString => [EmptyString]
  | String c rest =>
      match Split rest sep with
      | [] => [EmptyString]
      | l :: ls => if bool_decide (c = sep) then EmptyString :: l :: ls else String c l :: ls
      end
  end.

(** The white space of ASCII: tab, line feed, vertical tab, form feed,
    carriage return and space. *)
Definition isSpace (c : ascii) : bool :=
  let n := N_of_ascii c in
  (N.leb 9 n && N.leb n 13) || N.eqb n 32.

Fixpoint TrimLeftSpace (s : string) : string :=
  match s with
  | EmptyString => EmptyString
  | String c rest => if isSpace c then TrimLeftSpace rest else s
  end.

Fixpoint TrimRightSpace (s : string) : string :=
  match s with
  | EmptyString => EmptyString
  | String c rest =>
      match TrimRightSpace rest with
      | EmptyString => if isSpace c then EmptyString else String c EmptyString
      | rest' => String c rest'
      end
  end.

(** [strings.TrimSpace], on the bytes of ASCII text: the white space
    beyond ASCII, which Go trims as well, is left where it is. *)
Definition TrimSpace (s : string) : string := TrimRightSpace (TrimLeftSpace s).

(** [strings.LastIndex(s, sep)] for a separator of one byte; [None] is -1. *)
Fixpoint LastIndex (s : string) (sep : ascii) : option nat :=
  match s with
  | EmptyString => None
  | String c rest =>
      match LastIndex rest sep with
      | Some i => Some (S i)
      | None => if bool_decide (c = sep) then Some 0%nat else None
      end
  end.

(** [strings.TrimPrefix] *)
Definition TrimPrefix (s prefix : string) : string :=
  if HasPrefix s prefix
  then substring (String.length prefix) (String.length s - String.length prefix) s
  else s.

Definition tab : string := String (ascii_of_nat 9) "".

Section StackFrames.

(** [fmt.Sscanf(s, "%d", &n)]: the integer scanned off the front of [s],
    or [None] when the scan fails and leaves [n] as it was. *)
Variable Sscanf_d : string → option Z.

(** The body of the loop of [parseStackFrames] for the two lines at [i]
    and [i+1]. *)
Definition parseFrame (line_i line_i1 : string) : Frame :=
  let funcLine := TrimSpace line_i in
  let fileLine := TrimSpace line_i1 in
  match LastIndex fileLine ":" with
  | Some idx =>
      mkFrame (TrimPrefix (substring 0 idx fileLine) tab)
        (default 0%Z
           (Sscanf_d (substring (idx + 1) (String.length fileLine - (idx + 1)) fileLine)))
        funcLine
  | None => mkFrame "" 0 funcLine
  end.

(** The loop [for i := 1; i < len(lines); i += 2], on the lines from
    index [i] on: it stops when no line follows the one at [i]. *)
Fixpoint parseFrames (lines : list string) : list Frame :=
  match lines with
  | line_i :: line_i1 :: rest => parseFrame line_i line_i1 :: parseFrames rest
  | _ => []
  end.

Definition parseStackFrames (b : string) : list Frame :=
  if Nat.eqb (String.length b) 0 then []
  else
    match parseFrames (tail (Split b (ascii_of_nat 10))) with
    | [] => [mkFrame "unknown" 0 "unknown"]
    | frames => frames
    end.

Definition StackFrames (e : AppError) : list Frame := parseStackFrames (stackTrace e).

End StackFrames.

(** The number of bytes [c] in [s]. *)
Fixpoint count_byte (s : string) (c : ascii) : nat :=
  match s with
  | EmptyString => 0
  | String d rest => (if bool_decide (d = c) then 1 else 0) + count_byte rest c
  end.

(** A scanner of decimal digits, and a trace of one frame, to evaluate
    [parseStackFrames] on. *)
Definition scan_digits (s : string) : option Z :=
  Z.of_N <$> (N.of_uint <$> NilZero.uint_of_string s).

Definition sample_trace : string :=
  "goroutine 1 [running]:" +:+ newline +:+ "main.run()" +:+ newline
  +:+ tab +:+ "/app/main.go:12" +:+ newline.

(** The sentinels of the package. *)
Definition all_sentinels : list AppError :=
  [ErrInvalidInput; ErrNotFound; ErrConflict; ErrTimeout; ErrRateLimited;
   ErrForbidden; ErrUnauthorized; ErrInternal; ErrNetwork].

(** * Package [converter]

    The values a caller hands to the converters are Go values of any
    type.  Those with a [case] of their own in one of the type switches
    are kept by their type; [VMap] is a [map[string]any], which the
    configuration holds; [VOther] stands for a value of any further type.
    [int] is taken 64 bits wide.  Floating-point numbers are kept
    abstract: what [strconv], [fmt] and [time] do with them, and with the
    values printed by [fmt.Sprint], is given by the class [Runtime]. *)
Inductive value (float64 float32 other : Type) : Type :=
| VNil
| VString (s : string)
| VBool (b : bool)
| VInt (n : Z)
| VInt64 (n : Z)
| VInt32 (n : Z)
| VFloat64 (f : float64)
| VFloat32 (f : float32)
| VDuration (d : Z)
| VMap (m : gmap string (value float64 float32 other))
| VOther (o : other).
Arguments VNil {float64 float32 other}.
Arguments VString {float64 float32 other}.
Arguments VBool {float64 float32 other}.
Arguments VInt {float64 float32 other}.
Arguments VInt64 {float64 float32 other}.
Arguments VInt32 {float64 float32 other}.
Arguments VFloat64 {float64 float32 other}.
Arguments VFloat32 {float64 float32 other}.
Arguments VDuration {float64 float32 other}.
Arguments VMap {float64 float32 other}.
Arguments VOther {float64 float32 other}.

Class Runtime (float64 float32 other : Type) : Type := {
  (** [strconv.FormatFloat(f, 'f', -1, 64)] *)
  FormatFloat64 : float64 → string;
  (** [strconv.FormatFloat(float64(f), 'f', -1, 32)] *)
  FormatFloat32 : float32 → string;
  (** the conversions [int(f)] and [int64(f)] *)
  int_of_float64 : float64 → Z;
  int_of_float32 : float32 → Z;
  (** the conversions [float64(f)] and [float64(n)] *)
  float64_of_float32 : float32 → float64;
  float64_of_int : Z → float64;
  (** the comparison [f != 0] *)
  float64_nonzero : float64 → bool;
  (** the number [strconv.ParseFloat(s, 64)] returns, its error dropped *)
  ParseFloat : string → float64;
  (** the duration [time.ParseDuration(s)] returns, its error dropped *)
  ParseDuration : string → Z;
  (** [fmt.Sprint(v)] *)
  Sprint : value float64 float32 other → string }.

Definition maxInt64 : Z := 9223372036854775807.
Definition minInt64 : Z := -9223372036854775808.

Definition maxUint64 : N := 18446744073709551615.

Definition isDigit (c : ascii) : bool :=
  let n := N_of_ascii c in N.leb 48 n && N.leb n 57.

(** What [strconv.ParseUint] returns: a syntax error, with the number 0;
    a range error, with the largest number; or a number and no error. *)
Inductive scanned : Type :=
| syntax_error
| range_error
| number (n : N).

(** [cutoff] in [ParseUint] for base 10: the smallest number that, times
    10, is beyond 64 bits. *)
Definition cutoff : N := maxUint64 / 10 + 1.

(** The loop of [ParseUint(s, 10, 64)] over the bytes of [s], with [n] the
    number read so far.  It stops at the first byte that is no digit with
    a syntax error, and at the first digit that takes the number beyond
    64 bits with a range error, whatever follows. *)
Fixpoint ParseUint_loop (s : string) (n : N) : scanned :=
  match s with
  | EmptyString => number n
  | String c rest =>
      if isDigit c then
        let d := (N_of_ascii c - 48)%N in
        if (cutoff <=? n)%N then range_error
        else
          let n1 := (n * 10 + d)%N in
          if (maxUint64 <? n1)%N then range_error else ParseUint_loop rest n1
      else syntax_error
  end.

Definition ParseUint (s : string) : scanned :=
  if s =? "" then syntax_error else ParseUint_loop s 0.

(** The leading sign that [ParseInt] picks off: whether it is a minus,
    and the rest. *)
Definition split_sign (s : string) : bool * string :=
  match s with
  | String "+"%char rest => (false, rest)
  | String "-"%char rest => (true, rest)
  | _ => (false, s)
  end.

(** [strconv.ParseInt(s, 10, 64)] and, [int] being 64 bits wide,
    [strconv.Atoi(s)], whose fast path for short texts returns the same:
    the integer returned, the error dropped.  That is 0 on a syntax
    error, and the nearest bound when the number is out of range; on a
    range error of [ParseUint] the number is the largest of 64 bits. *)
Definition ParseInt10 (s : string) : Z :=
  if s =? "" then 0%Z
  else
    let '(neg, s) := split_sign s in
    match ParseUint s with
    | syntax_error => 0%Z
    | r =>
        let un := match r with number n => n | _ => maxUint64 end in
        let cutoff := (2 ^ 63)%N in
        if negb neg && (cutoff <=? un)%N then maxInt64
        else if neg && (cutoff <? un)%N then minInt64
        else if neg then (- Z.of_N un)%Z else Z.of_N un
    end.

(** [strconv.FormatInt(n, 10)] and [strconv.Itoa(n)] *)
Definition FormatInt (n : Z) : string :=
  if (n <? 0)%Z then String "-"%char (itoa (Z.to_N (- n))) else itoa (Z.to_N n).

(** [strconv.FormatBool] *)
Definition FormatBool (b : bool) : string := if b then "true" else "false".

Section Converter.
Context {float64 float32 other : Type} `{!Runtime float64 float32 other}.
#[local] Abbreviation value := (value float64 float32 other).

Definition ToString (v : value) : string :=
  match v with
  | VNil => ""
  | VString val => val
  | VBool val => FormatBool val
  | VInt val => FormatInt val
  | VInt64 val => FormatInt val
  | VInt32 val => FormatInt val
  | VFloat64 val => FormatFloat64 val
  | VFloat32 val => FormatFloat32 val
  | _ => Sprint v
  end.

Definition ToInt (v : value) : Z :=
  match v with
  | VNil => 0
  | VInt val => val
  | VInt64 val => val
  | VInt32 val => val
  | VFloat64 val => int_of_float64 val
  | VFloat32 val => int_of_float32 val
  | VString val => ParseInt10 (TrimSpace val)
  | _ => ParseInt10 (ToString v)
  end.

Definition ToInt64 (v : value) : Z :=
  match v with
  | VNil => 0
  | VInt64 val => val
  | VInt val => val
  | VInt32 val => val
  | VFloat64 val => int_of_float64 val
  | VString val => ParseInt10 (TrimSpace val)
  | _ => ParseInt10 (ToString v)
  end.

Definition ToBool (v : value) : bool :=
  match v with
  | VNil => false
  | VBool val => val
  | VString val =>
      let s := ToLower (TrimSpace val) in
      (s =? "true") || (s =? "1") || (s =? "yes") || (s =? "on")
  | VInt _ | VInt64 _ => negb (Z.eqb (ToInt v) 0)
  | VFloat64 val => float64_nonzero val
  | _ => ToString v =? "true"
  end.

Definition ToFloat64 (v : value) : float64 :=
  match v with
  | VNil => float64_of_int 0
  | VFloat64 val => val
  | VFloat32 val => float64_of_float32 val
  | VInt val => float64_of_int val
  | VInt64 val => float64_of_int val
  | VString val => ParseFloat (TrimSpace val)
  | _ => ParseFloat (ToString v)
  end.

Definition ToDuration (v : value) : Z :=
  match v with
  | VNil => 0
  | VDuration val => val
  | VString val => ParseDuration (TrimSpace val)
  | VInt64 val => val
  | VInt val => val
  | _ => ParseDuration (ToString v)
  end.

End Converter.

(** The number that the decimal digits of [s] write after those of [n]. *)
Fixpoint digits_value (s : string) (n : N) : N :=
  match s with
  | EmptyString => n
  | String c rest => digits_value rest (n * 10 + (N_of_ascii c - 48))%N
  end.

(** A runtime to evaluate the converters with: its floating-point numbers
    are the integers, and a value without a text of its own is printed as
    the empty text. *)
#[export] Instance integer_Runtime : Runtime Z Z unit := {|
  FormatFloat64 := FormatInt;
  FormatFloat32 := FormatInt;
  int_of_float64 := id;
  int_of_float32 := id;
  float64_of_float32 := id;
  float64_of_int := id;
  float64_nonzero := fun f => negb (f =? 0)%Z;
  ParseFloat := ParseInt10;
  ParseDuration := fun _ => 0%Z;
  Sprint := fun _ => "" |}.

(** * Package [config] *)

Definition upper_ascii (c : ascii) : ascii :=
  let n := nat_of_ascii c in
  if Nat.leb 97 n && Nat.leb n 122 then ascii_of_nat (n - 32) else c.

(** [strings.ToUpper], on the bytes of ASCII text. *)
Fixpoint ToUpper (s : string) : string :=
  match s with
  | EmptyString => EmptyString
  | String c rest => String (upper_ascii c) (ToUpper rest)
  end.

(** [strings.ReplaceAll(s, old, new)] for [old] and [new] of one byte. *)
Fixpoint ReplaceAll (s : string) (old new : ascii) : string :=
  match s with
  | EmptyString => EmptyString
  | String c rest =>
      String (if bool_decide (c = old) then new else c) (ReplaceAll rest old new)
  end.

(** [strings.HasSuffix] and [strings.TrimSuffix] *)
Definition HasSuffix (s suffix : string) : bool :=
  Nat.leb (String.length suffix) (String.length s) &&
  String.eqb
    (substring (String.length s - String.length suffix) (String.length suffix) s)
    suffix.

Definition TrimSuffix (s suffix : string) : string :=
  if HasSuffix s suffix
  then substring 0 (String.length s - String.length suffix) s
  else s.

Module config.
Section Config.
Context {float64 float32 other : Type} `{!Runtime float64 float32 other}.
#[local] Abbreviation value := (value float64 float32 other).

(** The maps of a configuration are modelled by their contents: [data] is
    a tree, no map of it is reachable by two keys.  [deepCopy] builds such
    a tree, and [setNested] keeps it one when the value set is not a map
    held elsewhere.  The mutex is left out: the functions are modelled one
    call at a time.  [data] is never [nil]. *)
Record Config : Type := mkConfig {
  data : gmap string value;
  envPrefix : string }.

Definition Option : Type := Config → Config.

Definition WithEnvPrefix (prefix : string) : Option :=
  fun c => mkConfig (data c) (TrimSuffix (ToUpper prefix) "_").

Definition New (opts : list Option) : Config :=
  foldl (fun c opt => opt c) (mkConfig ∅ "") opts.

Fixpoint deepCopy_value (v : value) : value :=
  match v with
  | VMap vm => VMap (deepCopy_value <$> vm)
  | _ => v
  end.

Definition deepCopy (m : gmap string value) : gmap string value :=
  deepCopy_value <$> m.

(** [m] is [None] for the [nil] map. *)
Definition FromMap (m : option (gmap string value)) (opts : list Option) : Config :=
  let m := default ∅ m in
  let c := New opts in
  mkConfig (deepCopy m) (envPrefix c).

Definition envKey (c : Config) (key : string) : string :=
  let s := ReplaceAll key "." "_" in
  let s := ToUpper s in
  if negb (envPrefix c =? "") then envPrefix c +:+ "_" +:+ s else s.

(** The body of the loop of [splitKey] at index [i]; the state is [parts]
    and [start]. *)
Definition splitKey_step (key : string) (st : list string * nat) (i : nat)
  : list string * nat :=
  let '(parts, start) := st in
  if Nat.eqb i (String.length key) || bool_decide (String.get i key = Some "."%char)
  then ((if Nat.ltb start i
         then (parts ++ [substring start (i - start) key])%list
         else parts),
        (i + 1)%nat)
  else (parts, start).

Definition splitKey (key : string) : list string :=
  (foldl (splitKey_step key) ([], 0%nat) (seq 0 (String.length key + 1))).1.

(** The loop of [getNested]: [None] is the return of [(nil, false)]. *)
Fixpoint getNested_loop (parts : list string) (current : value) : option value :=
  match parts with
  | [] => Some current
  | part :: parts =>
      match current with
      | VMap m =>
          match m !! part with
          | Some val => getNested_loop parts val
          | None => None
          end
      | _ => None
      end
  end.

Definition getNested (m : gmap string value) (key : string) : option value :=
  if key =? "" then None else getNested_loop (splitKey key) (VMap m).

(** The loop of [setNested] and the assignment after it, on the parts that
    are left.  The map the loop goes down to is updated in place; in the
    tree that is the update of the entry of [m] that holds it. *)
Fixpoint setNested_loop (m : gmap string value) (parts : list string) (val : value)
  : gmap string value :=
  match parts with
  | [] => m
  | part :: rest =>
      match rest with
      | [] => <[part := val]> m
      | _ :: _ =>
          let next := match m !! part with
                      | Some (VMap next) => next
                      | _ => ∅
                      end in
          <[part := VMap (setNested_loop next rest val)]> m
      end
  end.

Definition setNested (m : gmap string value) (key : string) (val : value)
  : gmap string value :=
  setNested_loop m (splitKey key) val.

Section Environment.
(** The environment of the process, as [os.LookupEnv] reads it. *)
Variable env : gmap string string.

Definition Get (c : Config) (key : string) : option value :=
  if negb (envPrefix c =? "") then
    match env !! envKey c key with
    | Some v => Some (VString v)
    | None => getNested (data c) key
    end
  else getNested (data c) key.

Definition GetString (c : Config) (key : string) : string :=
  ToString (default VNil (Get c key)).
Definition GetInt (c : Config) (key : string) : Z :=
  ToInt (default VNil (Get c key)).
Definition GetInt64 (c : Config) (key : string) : Z :=
  ToInt64 (default VNil (Get c key)).
Definition GetBool (c : Config) (key : string) : bool :=
  ToBool (default VNil (Get c key)).
Definition GetFloat64 (c : Config) (key : string) : float64 :=
  ToFloat64 (default VNil (Get c key)).
Definition GetDuration (c : Config) (key : string) : Z :=
  ToDuration (default VNil (Get c key)).

Definition GetOrDefault (c : Config) (key : string) (defaultVal : value) : value :=
  match Get c key with
  | None => defaultVal
  | Some v => v
  end.
Definition GetStringOrDefault (c : Config) (key : string) (defaultVal : string)
  : string :=
  match Get c key with
  | None => defaultVal
  | Some v => ToString v
  end.
Definition GetIntOrDefault (c : Config) (key : string) (defaultVal : Z) : Z :=
  match Get c key with
  | None => defaultVal
  | Some v => ToInt v
  end.
Definition GetBoolOrDefault (c : Config) (key : string) (defaultVal : bool) : bool :=
  match Get c key with
  | None => defaultVal
  | Some v => ToBool v
  end.

Definition Has (c : Config) (key : string) : bool := bool_decide (is_Some (Get c key)).

End Environment.

(** Method [Set]; the name alone is a keyword here. *)
Definition Set_ (c : Config) (key : string) (val : value) : Config :=
  mkConfig (setNested (data c) key val) (envPrefix c).

End Config.
End config.

(** ** Notions the properties of [config] are stated with *)

(** [strings.Join(parts, ".")] *)
Fixpoint join_dots (parts : list string) : string :=
  match parts with
  | [] => ""
  | [p] => p
  | p :: rest => p +:+ "." +:+ join_dots rest
  end.

Definition is_dot (c : ascii) : bool := bool_decide (c = "."%char).

(** A part of a key: not empty, and without a dot. *)
Definition key_part (p : string) : Prop := p ≠ "" ∧ count_byte p "." = 0%nat.

(** The depth of the maps in a value: the measure of the induction on the
    values a map holds. *)
Fixpoint value_size {float64 float32 other : Type} (v : value float64 float32 other)
  : nat :=
  match v with
  | VMap m => S (map_fold (fun _ v' acc => value_size v' + acc)%nat 0%nat m)
  | _ => 0%nat
  end.

(** Two paths part ways: at some index both have a part, the parts differ
    there and are the same before. *)
Fixpoint diverge (l1 l2 : list string) : bool :=
  match l1, l2 with
  | p :: r1, q :: r2 => if bool_decide (p = q) then diverge r1 r2 else true
  | _, _ => false
  end.

(** * Package [respond] *)

Module respond.
Section Respond.

(** The Go values handed over as the data of a response. *)
Variable Data : Type.

Record Response : Type := mkResponse {
  Status : Z;
  Data_ : option Data;
  Error_ : bool;
  Message : string }.

(** An [http.ResponseWriter] is a state [W] with the calls [toJSON] makes
    on it: [WriteHeader], [Header().Set] and, through
    [json.NewEncoder(rw).Encode], the writing of the encoded response,
    which also returns the text of the error of the encoder, if any. *)
Variable W : Type.
Variable WriteHeader : Z → W → W.
Variable Header_Set : string → string → W → W.
Variable Encode : Response → W → W * option string.

(** [time.Now] and [debug.Stack] for the errors made here. *)
Variable env : Env.

Definition toJSON (rw : W) (status : Z) (data : option Data) (message : string)
  (isError : bool) : W * option AppError :=
  let rw := WriteHeader status rw in
  let rw := Header_Set "Content-Type" "application/json" rw in
  let response := mkResponse status data isError message in
  match Encode response rw with
  | (rw, Some err) => (rw, Some (New env CodeInternal err "" []))
  | (rw, None) => (rw, None)
  end.

Definition OK (rw : W) (data : option Data) : W * option AppError :=
  toJSON rw 200 data "" false.

Definition Created (rw : W) (data : option Data) : W * option AppError :=
  toJSON rw 201 data "" false.

Definition Fail (rw : W) (data : option Data) : W * option AppError :=
  toJSON rw 500 data "" false.

(** [appErr] is a pointer: on [nil] the call of [HTTPStatus] panics, which
    is the result [None]. *)
Definition Error (rw : W) (appErr : option AppError)
  : option (W * option AppError) :=
  match appErr with
  | None => None
  | Some appErr =>
      Some (toJSON rw (HTTPStatus appErr) None (AppError_Error appErr) true)
  end.

End Respond.
End respond.

(** A writer that keeps the calls made on it, the last one first. *)
Inductive call (Data : Type) : Type :=
| call_WriteHeader (status : Z)
| call_Header_Set (key val : string)
| call_Encode (response : respond.Response Data).
Arguments call_WriteHeader {Data}.
Arguments call_Header_Set {Data}.
Arguments call_Encode {Data}.

Definition record_WriteHeader {Data : Type} (status : Z) (rw : list (call Data))
  : list (call Data) := call_WriteHeader status :: rw.
Definition record_Header_Set {Data : Type} (key val : string) (rw : list (call Data))
  : list (call Data) := call_Header_Set key val :: rw.
Definition record_Encode {Data : Type} (response : respond.Response Data)
  (rw : list (call Data)) : list (call Data) * option string :=
  (call_Encode response :: rw, None).

Definition keeps_InternalMsg (o : Option) : Prop :=
  ∀ e, InternalMsg (o e) = InternalMsg e.

(** * Properties *)

(** ** Taxonomy *)

Lemma one_of_elem_of (x : string) (cases : list string) :
  one_of x cases = true ↔ x ∈ cases.
Proof.
  induction cases as [|c cs IH]; simpl.
  - split; [discriminate | intros H; inversion H].
  - rewrite orb_true_iff, IH, String.eqb_eq, elem_of_cons. tauto.
Qed.

Lemma one_of_not_elem_of (x : string) (cases : list string) :
  x ∉ cases → one_of x cases = false.
Proof.
  intros H. destruct (one_of x cases) eqn:Heq; [|done].
  apply one_of_elem_of in Heq. contradiction.
Qed.

Lemma kindToHTTPStatus_unlisted (k : string) :
  k ∉ all_kinds → kindToHTTPStatus k = 500%Z.
Proof.
  intros H. unfold kindToHTTPStatus.
  repeat (rewrite one_of_not_elem_of; [|unfold all_kinds in H; not_listed H]).
  reflexivity.
Qed.

Lemma kindToHTTPStatus_range (k : string) :
  kindToHTTPStatus k ∈ [400; 401; 403; 404; 408; 409; 429; 500]%Z.
Proof.
  unfold kindToHTTPStatus. case_ifs; rewrite ?elem_of_cons; tauto.
Qed.

(** C6. [kindToHTTPStatus] is defined on every kind: it sends validation
    to 400, unauthorized to 401, auth and forbidden to 403, not_found to
    404, timeout to 408, conflict to 409, rate_limit to 429, network,
    internal and other to 500, every kind outside the enumeration to 500,
    and so always answers one of 400, 401, 403, 404, 408, 409, 429, 500. *)
Theorem kindToHTTPStatus_table :
  kindToHTTPStatus KindValidation = 400%Z ∧
  kindToHTTPStatus KindUnauthorized = 401%Z ∧
  kindToHTTPStatus KindAuth = 403%Z ∧
  kindToHTTPStatus KindForbidden = 403%Z ∧
  kindToHTTPStatus KindNotFound = 404%Z ∧
  kindToHTTPStatus KindTimeout = 408%Z ∧
  kindToHTTPStatus KindConflict = 409%Z ∧
  kindToHTTPStatus KindRateLimit = 429%Z ∧
  kindToHTTPStatus KindNetwork = 500%Z ∧
  kindToHTTPStatus KindInternal = 500%Z ∧
  kindToHTTPStatus KindOther = 500%Z ∧
  (∀ k : string, k ∉ all_kinds → kindToHTTPStatus k = 500%Z) ∧
  (∀ k : string,
     kindToHTTPStatus k ∈ [400; 401; 403; 404; 408; 409; 429; 500]%Z).
Proof.
  repeat split; try reflexivity.
  - apply kindToHTTPStatus_unlisted.
  - apply kindToHTTPStatus_range.
Qed.

(** ** Construction *)

Lemma package_option_keeps_UserMsg (o : Option) :
  package_option o → keeps_UserMsg o.
Proof. intros [] e; reflexivity. Qed.

Lemma apply_options_app (opts1 opts2 : list Option) (e : AppError) :
  apply_options (opts1 ++ opts2) e = apply_options opts2 (apply_options opts1 e).
Proof. unfold apply_options. apply foldl_app. Qed.

Lemma apply_options_keeps_Kind (opts : list Option) (e : AppError) :
  Forall keeps_Kind opts → Kind (apply_options opts e) = Kind e.
Proof.
  intros H. revert e. induction H as [|o opts Ho _ IH]; intros e; simpl.
  - reflexivity.
  - rewrite IH. apply Ho.
Qed.

Lemma apply_options_keeps_UserMsg (opts : list Option) (e : AppError) :
  Forall keeps_UserMsg opts → UserMsg (apply_options opts e) = UserMsg e.
Proof.
  intros H. revert e. induction H as [|o opts Ho _ IH]; intros e; simpl.
  - reflexivity.
  - rewrite IH. apply Ho.
Qed.

Lemma New_UserMsg (env : Env) (code internalMsg userMsg : string) (opts : list Option) :
  Forall keeps_UserMsg opts →
  UserMsg (New env code internalMsg userMsg opts)
  = if userMsg =? "" then internalMsg else userMsg.
Proof.
  intros H. unfold New. rewrite apply_options_keeps_UserMsg by exact H.
  destruct (userMsg =? ""); reflexivity.
Qed.

(** C5, at both messages empty: the error [New] returns has an empty
    [UserMsg]. *)
Lemma New_empty_messages_UserMsg_empty :
  UserMsg (New (mkEnv zeroTime "") CodeInternal "" "" []) = "".
Proof. reflexivity. Qed.

(** C5, amended. For every code, both messages and every list of options
    that leave [UserMsg] alone (the exported options all do), the error
    [New] returns has [UserMsg] equal to the given [userMsg] when that is
    non-empty and to [internalMsg] otherwise; so [UserMsg] is non-empty as
    soon as one of the two messages is. *)
Theorem New_UserMsg_defaults_to_InternalMsg
  (env : Env) (code internalMsg userMsg : string) (opts : list Option) :
  Forall keeps_UserMsg opts →
  (userMsg = "" → UserMsg (New env code internalMsg userMsg opts) = internalMsg) ∧
  (userMsg ≠ "" → UserMsg (New env code internalMsg userMsg opts) = userMsg) ∧
  (internalMsg ≠ "" ∨ userMsg ≠ "" →
   UserMsg (New env code internalMsg userMsg opts) ≠ "").
Proof.
  intros H. rewrite New_UserMsg by exact H.
  destruct (userMsg =? "") eqn:Heq.
  - apply String.eqb_eq in Heq. subst userMsg. repeat split; try done.
    intros [Hi | Hu]; done.
  - apply String.eqb_neq in Heq. repeat split; done.
Qed.

(** C5 at a concrete construction, the one of the package's test. *)
Lemma New_UserMsg_defaults_to_InternalMsg_witness :
  Forall keeps_UserMsg [WithTraceID "t-1"; WithKind KindNetwork; WithMetadata ∅] ∧
  UserMsg (New (mkEnv zeroTime "") CodeNotFound "not found internally" ""
             [WithTraceID "t-1"; WithKind KindNetwork; WithMetadata ∅])
  = "not found internally".
Proof.
  assert (H : Forall keeps_UserMsg
                [WithTraceID "t-1"; WithKind KindNetwork; WithMetadata ∅]).
  { repeat constructor. }
  split; [exact H|].
  exact (proj1 (New_UserMsg_defaults_to_InternalMsg
                  (mkEnv zeroTime "") CodeNotFound "not found internally" ""
                  _ H) eq_refl).
Defined.

(** The flags after the two options that [NewTimeoutError] appends. *)
Lemma apply_forced_timeout_options (opts : list Option) (e : AppError) :
  let e' := apply_options (opts ++ [WithTimeout true; WithRetryable true]) e in
  Timeout e' = true ∧ Retryable e' = true.
Proof. simpl. rewrite apply_options_app. simpl. split; reflexivity. Qed.

(** C3. Whatever the deadline and the options handed to
    [NewTimeoutError], among them [WithRetryable false] and
    [WithTimeout false], the error it returns has both flags set and
    answers true to [IsTimeout] and to [IsRetryable]. *)
Theorem NewTimeoutError_forces_retryable_timeout
  (env : Env) (deadline : Time) (opts : list Option) :
  let te := NewTimeoutError env deadline opts in
  IsTimeout (TimeoutError_AppError te) = true ∧
  IsRetryable_method (TimeoutError_AppError te) = true ∧
  Timeout (TimeoutError_AppError te) = true ∧
  Retryable (TimeoutError_AppError te) = true ∧
  Kind (TimeoutError_AppError te) = KindTimeout.
Proof.
  simpl. unfold IsTimeout, IsRetryable_method, New. simpl.
  match goal with
  | |- context [apply_options (opts ++ ?l) ?e] =>
      destruct (apply_forced_timeout_options opts e) as [Ht Hr]
  end.
  simpl in Ht, Hr. rewrite Ht, Hr. repeat split; reflexivity.
Qed.

Example NewTimeoutError_overrides_conflicting_options :
  let te := NewTimeoutError (mkEnv zeroTime "") zeroTime
              [WithRetryable false; WithTimeout false; WithKind KindOther] in
  IsTimeout (TimeoutError_AppError te) = true ∧
  IsRetryable_method (TimeoutError_AppError te) = true.
Proof. split; reflexivity. Qed.

Lemma package_option_keeps_Kind (o : Option) :
  package_option o → (∀ k, o ≠ WithKind k) → keeps_Kind o.
Proof.
  intros [] Hne e; try reflexivity.
  exfalso. eapply Hne. reflexivity.
Qed.

Lemma codeToKind_never_unauthorized (c : string) :
  codeToKind c ≠ KindUnauthorized.
Proof.
  unfold codeToKind. case_ifs; discriminate.
Qed.

(** C10. [New] with code UNAUTHORIZED and options that leave [Kind] alone
    returns an error of kind auth, whose HTTP status is 403, while the
    sentinel [ErrUnauthorized] has kind unauthorized and HTTP status 401:
    [codeToKind] sends PERMISSION_DENIED and UNAUTHORIZED to auth and sends
    no code to unauthorized. *)
Theorem New_unauthorized_code_is_kind_auth
  (env : Env) (internalMsg userMsg : string) (opts : list Option) :
  Forall keeps_Kind opts →
  Kind (New env CodeUnauthorized internalMsg userMsg opts) = KindAuth ∧
  HTTPStatus (New env CodeUnauthorized internalMsg userMsg opts) = 403%Z ∧
  Kind ErrUnauthorized = KindUnauthorized ∧
  HTTPStatus ErrUnauthorized = 401%Z ∧
  codeToKind CodePermissionDenied = KindAuth ∧
  codeToKind CodeUnauthorized = KindAuth ∧
  (∀ c : string, codeToKind c ≠ KindUnauthorized).
Proof.
  intros H.
  assert (Hk : Kind (New env CodeUnauthorized internalMsg userMsg opts) = KindAuth).
  { unfold New. rewrite apply_options_keeps_Kind by exact H.
    destruct (userMsg =? ""); reflexivity. }
  unfold HTTPStatus. rewrite Hk.
  repeat split; try reflexivity.
  apply codeToKind_never_unauthorized.
Qed.

(** C10 at a concrete construction. *)
Lemma New_unauthorized_code_is_kind_auth_witness :
  Forall keeps_Kind [WithTraceID "t-1"; WithRetryable true] ∧
  Kind (New (mkEnv zeroTime "") CodeUnauthorized "no session" "please log in"
          [WithTraceID "t-1"; WithRetryable true]) = KindAuth ∧
  HTTPStatus (New (mkEnv zeroTime "") CodeUnauthorized "no session" "please log in"
                [WithTraceID "t-1"; WithRetryable true]) = 403%Z.
Proof.
  assert (H : Forall keeps_Kind [WithTraceID "t-1"; WithRetryable true]).
  { repeat constructor. }
  split; [exact H|].
  pose proof (New_unauthorized_code_is_kind_auth
                (mkEnv zeroTime "") "no session" "please log in" _ H) as P.
  split; [exact (proj1 P) | exact (proj1 (proj2 P))].
Defined.

(** ** Chain helpers *)

(** The loop in the shape the source has: assert the method, call it,
    stop on nil. *)
Lemma RootCause_loop_unfold (err : error) :
  RootCause_loop err =
  match Unwrap_method err with
  | Some (Some next) => RootCause_loop next
  | _ => err
  end.
Proof.
  destruct err; reflexivity.
Qed.

Lemma RootCause_loop_chain_end (err : error) :
  chain_end err → RootCause_loop err = err.
Proof.
  intros [H | H]; rewrite RootCause_loop_unfold, H; reflexivity.
Qed.

(** Induction along [Unwrap]: the chain below an error is finite. *)
Lemma error_chain_ind (P : error → Prop) :
  (∀ x, chain_end x → P x) →
  (∀ x y, Unwrap_method x = Some (Some y) → P y → P x) →
  ∀ x, P x.
Proof.
  intros Hend Hstep.
  fix IH 1. intros x.
  destruct (Unwrap_method x) as [[y|]|] eqn:Hx.
  - apply (Hstep x y Hx).
    destruct x as [e|w|le|re|fe|te|errs|text u]; simpl in Hx.
    + destruct e as [? ? ? ? c ? ? ? ? ? ? ?]; simpl in Hx.
      destruct c as [c|]; [|discriminate]. injection Hx as <-. apply IH.
    + destruct w as [? c]; simpl in Hx.
      destruct c as [c|]; [|discriminate]. injection Hx as <-. apply IH.
    + destruct le as [[? ? ? ? c ? ? ? ? ? ? ?] ? ?]; simpl in Hx.
      destruct c as [c|]; [|discriminate]. injection Hx as <-. apply IH.
    + destruct re as [[? ? ? ? c ? ? ? ? ? ? ?] ? ? ?]; simpl in Hx.
      destruct c as [c|]; [|discriminate]. injection Hx as <-. apply IH.
    + destruct fe as [[? ? ? ? c ? ? ? ? ? ? ?] ? ?]; simpl in Hx.
      destruct c as [c|]; [|discriminate]. injection Hx as <-. apply IH.
    + destruct te as [[? ? ? ? c ? ? ? ? ? ? ?] ?]; simpl in Hx.
      destruct c as [c|]; [|discriminate]. injection Hx as <-. apply IH.
    + discriminate.
    + destruct u as [[c|]|]; try discriminate. injection Hx as <-. apply IH.
  - apply Hend. right. exact Hx.
  - apply Hend. left. exact Hx.
Qed.

Lemma RootCause_loop_reached (err : error) :
  unwraps_to err (RootCause_loop err) ∧ chain_end (RootCause_loop err).
Proof.
  induction err as [x Hx | x y Hxy [IH1 IH2]] using error_chain_ind.
  - rewrite RootCause_loop_chain_end by exact Hx.
    split; [constructor | exact Hx].
  - rewrite RootCause_loop_unfold, Hxy.
    split; [econstructor; eassumption | exact IH2].
Qed.

Lemma chain_length_unfold (err : error) :
  chain_length err =
  match Unwrap_method err with
  | Some (Some next) => S (chain_length next)
  | _ => 1
  end.
Proof. destruct err; reflexivity. Qed.

(** The loop returns within as many turns as the chain has errors. *)
Lemma RootCause_iter_enough (fuel : nat) (err : error) :
  (chain_length err ≤ fuel)%nat →
  RootCause_iter fuel err = Some (RootCause_loop err).
Proof.
  revert err. induction fuel as [|fuel IH]; intros err Hlen.
  - rewrite chain_length_unfold in Hlen.
    destruct (Unwrap_method err) as [[next|]|]; lia.
  - rewrite chain_length_unfold in Hlen.
    cbn [RootCause_iter]. unfold RootCause_step.
    rewrite RootCause_loop_unfold.
    destruct (Unwrap_method err) as [[next|]|]; try reflexivity.
    apply IH. lia.
Qed.

Lemma RootCause_wrap_twice (base : error) (m1 m2 : string) :
  RootCause (Wrap (Wrap (Some base) m1) m2) = RootCause (Some base).
Proof. reflexivity. Qed.

(** C7. [RootCause] returns on every error chain: on nil it returns nil,
    and on a non-nil error it returns the error that repeated [Unwrap]
    reaches last, one at which the chain ends; the loop of the source gets
    there within as many turns as the chain has errors.  An error at which
    the chain ends is returned unchanged, and for such a base error
    [RootCause (Wrap (Wrap base "mid") "outer")] is the base. *)
Theorem RootCause_returns_end_of_chain :
  RootCause None = None ∧
  (∀ err : error, ∃ r : error,
     RootCause (Some err) = Some r ∧ unwraps_to err r ∧ chain_end r) ∧
  (∀ (err : error) (fuel : nat),
     (chain_length err ≤ fuel)%nat →
     RootCause_iter fuel err = RootCause (Some err)) ∧
  (∀ err : error, chain_end err → RootCause (Some err) = Some err) ∧
  (∀ base : error, chain_end base →
     RootCause (Wrap (Wrap (Some base) "mid") "outer") = Some base) ∧
  (∀ base : error,
     RootCause (Wrap (Wrap (Some base) "mid") "outer") = RootCause (Some base)).
Proof.
  split; [reflexivity|]. split; [|split; [|split; [|split]]].
  - intros err. exists (RootCause_loop err).
    split; [reflexivity | apply RootCause_loop_reached].
  - intros err fuel H. apply RootCause_iter_enough, H.
  - intros err H. simpl. f_equal. apply RootCause_loop_chain_end, H.
  - intros base H. rewrite RootCause_wrap_twice. simpl. f_equal.
    apply RootCause_loop_chain_end, H.
  - intros base. apply RootCause_wrap_twice.
Qed.

Example RootCause_of_two_wraps :
  let inner := Err_AppError (New (mkEnv zeroTime "") CodeValidation "innermost" "innermost" []) in
  RootCause (Wrap (Wrap (Some inner) "mid") "outer") = Some inner ∧
  RootCause (Some inner) = Some inner.
Proof. split; reflexivity. Qed.

Lemma is_loop_refl (x : error) : is_loop x x = true.
Proof.
  destruct x; simpl; rewrite bool_decide_eq_true_2 by reflexivity; reflexivity.
Qed.

Lemma is_loop_unfold (err target : error) :
  is_loop err target =
  bool_decide (err = target) ||
  match err with
  | Err_joinError errs => existsb (fun x => is_loop x target) errs
  | _ =>
      match Unwrap_method err with
      | Some (Some next) => is_loop next target
      | _ => false
      end
  end.
Proof. destruct err; reflexivity. Qed.

Lemma is_loop_wrap (x target : error) (m : string) :
  is_loop x target = true →
  is_loop (Err_wrapError (mkwrapError m (Some x))) target = true.
Proof. intros H. simpl. rewrite H. apply orb_true_r. Qed.

Lemma is_loop_join (l : list error) (e : error) :
  e ∈ l → is_loop (Err_joinError l) e = true.
Proof.
  intros Hin. simpl. apply orb_true_iff. right.
  apply existsb_exists. exists e.
  split; [apply list_elem_of_In, Hin | apply is_loop_refl].
Qed.

Lemma elem_of_nonNil (errs : list (option error)) (e : error) :
  e ∈ nonNil errs ↔ Some e ∈ errs.
Proof.
  induction errs as [|[x|] rest IH]; simpl.
  - split; intros H; inversion H.
  - rewrite !elem_of_cons, IH. split; intros [H | H]; auto; left; congruence.
  - rewrite elem_of_cons, IH. split; [auto | intros [H | H]; [discriminate | done]].
Qed.

Lemma nonNil_all_nil (errs : list (option error)) :
  Forall (fun x => x = None) errs → nonNil errs = [].
Proof. induction 1 as [|x l Hx _ IH]; simpl; [done|]. subst x. exact IH. Qed.

(** C8. [MultiError] drops the nil inputs.  With none left it returns
    nil, as on no input and on two nils; with exactly one left it returns
    that very error; with two or more left it returns a joined error that
    [Is] matches against each of them. *)
Theorem MultiError_nil_single_joined (errs : list (option error)) :
  MultiError [] = None ∧
  MultiError [None; None] = None ∧
  (∀ e : error, e ∈ nonNil errs ↔ Some e ∈ errs) ∧
  match nonNil errs with
  | [] => MultiError errs = None
  | [e] => MultiError errs = Some e
  | l =>
      ∃ joined : error,
        MultiError errs = Some joined ∧
        ∀ e : error, e ∈ l → Is (Some joined) (Some e) = true
  end.
Proof.
  split; [reflexivity|]. split; [reflexivity|].
  split; [intros e; apply elem_of_nonNil|].
  unfold MultiError.
  destruct (nonNil errs) as [|a [|b l]]; [reflexivity | reflexivity |].
  exists (Err_joinError (a :: b :: l)).
  split; [reflexivity|]. intros e Hin. apply is_loop_join, Hin.
Qed.

Example MultiError_of_two_sentinels :
  let e1 := Err_AppError ErrNotFound in
  let e2 := Err_AppError ErrInvalidInput in
  Is (MultiError [Some e1; Some e2]) (Some e1) = true ∧
  Is (MultiError [Some e1; None; Some e2]) (Some e2) = true ∧
  MultiError [None; Some e1; None] = Some e1.
Proof. repeat split; vm_compute; reflexivity. Qed.

(** C9. [Wrap] of nil is nil.  [Wrap] of a non-nil error is a wrapper
    whose text is the message, a colon and a space, then the text of the
    error, and whose [Unwrap] is the error; so [Is] still finds in the
    wrapper the error itself and whatever [Is] found in it before, a
    wrapped sentinel included. *)
Theorem Wrap_keeps_chain :
  (∀ m : string, Wrap None m = None) ∧
  (∀ (err : error) (m : string),
     ∃ w : error,
       Wrap (Some err) m = Some w ∧
       Error w = m +:+ ": " +:+ Error err ∧
       Unwrap (Some w) = Some err ∧
       Is (Some w) (Some err) = true) ∧
  (∀ (err target : error) (m : string),
     Is (Some err) (Some target) = true →
     Is (Wrap (Some err) m) (Some target) = true) ∧
  Is (Wrap (Some (Err_AppError ErrNotFound)) "ctx") (Some (Err_AppError ErrNotFound))
  = true.
Proof.
  split; [reflexivity|]. split; [|split].
  - intros err m. eexists. split; [reflexivity|].
    split; [reflexivity|]. split; [reflexivity|].
    unfold Is. apply is_loop_wrap, is_loop_refl.
  - intros err target m H. unfold Is, Wrap in *. apply is_loop_wrap, H.
  - unfold Is, Wrap. apply is_loop_wrap, is_loop_refl.
Qed.

(** ** Public-facing extraction *)

(** C2, on a wrapped sentinel: the chain holds [ErrNotFound], whose
    [UserMsg] is "resource not found", and [PublicError] answers the
    fallback. *)
Lemma PublicError_ignores_chain :
  Is (Wrap (Some (Err_AppError ErrNotFound)) "ctx") (Some (Err_AppError ErrNotFound))
  = true ∧
  UserMsg ErrNotFound = "resource not found" ∧
  PublicError (Wrap (Some (Err_AppError ErrNotFound)) "ctx") = "an error occurred".
Proof. repeat split; vm_compute; reflexivity. Qed.

(** C2, amended. [PublicError] returns the empty string on nil.  It looks
    at the dynamic type of [err] alone, never at its chain: for an
    [AppError] with a non-empty [UserMsg] it returns that [UserMsg]; for a
    [FieldError], [LimitError], [TimeoutError] or [RBACError] it returns
    the [UserMsg] of the embedded [AppError]; in every other case (an
    [AppError] with an empty [UserMsg], a wrapper or a joined error,
    whatever they wrap, a foreign error) it returns "an error occurred",
    and never the text of a foreign error. *)
Theorem PublicError_by_dynamic_type :
  PublicError None = "" ∧
  (∀ ae : AppError,
     UserMsg ae ≠ "" → PublicError (Some (Err_AppError ae)) = UserMsg ae) ∧
  (∀ ae : AppError,
     UserMsg ae = "" → PublicError (Some (Err_AppError ae)) = "an error occurred") ∧
  (∀ fe : FieldError,
     PublicError (Some (Err_FieldError fe)) = UserMsg (FieldError_AppError fe)) ∧
  (∀ le : LimitError,
     PublicError (Some (Err_LimitError le)) = UserMsg (LimitError_AppError le)) ∧
  (∀ te : TimeoutError,
     PublicError (Some (Err_TimeoutError te)) = UserMsg (TimeoutError_AppError te)) ∧
  (∀ re : RBACError,
     PublicError (Some (Err_RBACError re)) = UserMsg (RBACError_AppError re)) ∧
  (∀ err : error,
     embedded_AppError err = None → PublicError (Some err) = "an error occurred") ∧
  (∀ (text : string) (u : option (option error)),
     PublicError (Some (Err_foreign text u)) = "an error occurred").
Proof.
  split; [reflexivity|]. split; [|split].
  - intros ae H. simpl. apply String.eqb_neq in H. rewrite H. reflexivity.
  - intros ae H. simpl. rewrite H. reflexivity.
  - repeat split; try reflexivity.
    intros err H. destruct err; simpl in H; try discriminate; reflexivity.
Qed.

(** ** RFC 3339 *)










(** ** Redaction *)

Lemma lookup_redactMetadata (m : gmap string any) (k : string) :
  redactMetadata m !! k = (fun v => if isPIIField k then REDACTED else v) <$> m !! k.
Proof.
  unfold redactMetadata.
  apply (map_fold_weak_ind
           (fun (out m : gmap string any) =>
              out !! k = (fun v => if isPIIField k then REDACTED else v) <$> m !! k)).
  - rewrite !lookup_empty. reflexivity.
  - intros i x m' out Hi IH.
    destruct (decide (i = k)) as [->|Hne].
    + rewrite !lookup_insert_eq. reflexivity.
    + rewrite !lookup_insert_ne by exact Hne. exact IH.
Qed.


Lemma ToLower_app (a b : string) : ToLower (a +:+ b) = ToLower a +:+ ToLower b.
Proof. induction a as [|c a IH]; simpl; [reflexivity | rewrite IH; reflexivity]. Qed.

Lemma ToLower_app_inv (k a b : string) :
  ToLower k = a +:+ b →
  ∃ k1 k2, k = k1 +:+ k2 ∧ ToLower k1 = a ∧ ToLower k2 = b.
Proof.
  revert k. induction a as [|c a IH]; intros k H; simpl in H.
  - exists "", k. auto.
  - destruct k as [|c' k]; [discriminate|]. simpl in H.
    injection H as Hc Hk. destruct (IH k Hk) as (k1 & k2 & -> & <- & <-).
    exists (String c' k1), k2. simpl. rewrite Hc. auto.
Qed.

Lemma HasPrefix_spec (s p : string) :
  HasPrefix s p = true ↔ ∃ post, s = p +:+ post.
Proof.
  revert s. induction p as [|c p IH]; intros s; simpl.
  - split; [intros _; exists s; reflexivity | reflexivity].
  - destruct s as [|d s].
    + split; [discriminate | intros [post H]; discriminate].
    + rewrite andb_true_iff, bool_decide_eq_true, IH. split.
      * intros [-> [post ->]]. exists post. reflexivity.
      * intros [post H]. injection H as -> ->. split; [reflexivity | eauto].
Qed.

Lemma Contains_spec (s sub : string) :
  Contains s sub = true ↔ ∃ pre post, s = pre +:+ sub +:+ post.
Proof.
  induction s as [|c s IH]; simpl; rewrite orb_true_iff.
  - split.
    + intros [H | H]; [|discriminate].
      apply HasPrefix_spec in H as [post H]. exists "", post. exact H.
    + intros (pre & post & H). left. apply HasPrefix_spec.
      destruct pre; [|discriminate]. exists post. exact H.
  - rewrite IH. split.
    + intros [H | (pre & post & ->)].
      * apply HasPrefix_spec in H as [post H]. exists "", post. exact H.
      * exists (String c pre), post. reflexivity.
    + intros (pre & post & H). destruct pre as [|c' pre]; simpl in H.
      * left. apply HasPrefix_spec. exists post. exact H.
      * injection H as -> ->. right. eauto.
Qed.

Lemma lookup_flag_map (names : list string) (x : string) :
  default false
    ((list_to_map ((fun n => (n, true)) <$> names) : gmap string bool) !! x) = true
  ↔ x ∈ names.
Proof.
  induction names as [|n names IH]; simpl.
  - rewrite lookup_empty, elem_of_nil. simpl. split; [discriminate | tauto].
  - rewrite lookup_insert, elem_of_cons. case_decide as H.
    + subst n. simpl. tauto.
    + rewrite IH. split; [tauto | intros [-> | Hin]; [contradiction | exact Hin]].
Qed.

Lemma pIIFields_lookup (x : string) :
  default false (pIIFields !! x) = true ↔ x ∈ sensitive_names.
Proof. exact (lookup_flag_map sensitive_names x). Qed.

Lemma ToLower_sensitive_names (n : string) :
  n ∈ sensitive_names → ToLower n = n.
Proof.
  unfold sensitive_names. rewrite !elem_of_cons, elem_of_nil.
  intros H. repeat destruct H as [-> | H]; try reflexivity. contradiction.
Qed.

Lemma ToLower_sensitive_words (w : string) :
  w ∈ sensitive_words → ToLower w = w.
Proof.
  unfold sensitive_words. rewrite !elem_of_cons, elem_of_nil.
  intros H. repeat destruct H as [-> | H]; try reflexivity. contradiction.
Qed.

Lemma lower_ascii_cases (c : ascii) :
  lower_ascii c = c ∨ (c, lower_ascii c) ∈ letters.
Proof.
  destruct c as [[] [] [] [] [] [] [] []];
    first [left; reflexivity | right; vm_compute; repeat constructor].
Qed.

Lemma letters_lower_ascii (c d : ascii) :
  (c, d) ∈ letters → lower_ascii c = d ∧ lower_ascii d = d.
Proof.
  unfold letters. rewrite !elem_of_cons, elem_of_nil. intros H.
  repeat destruct H as [[= -> ->] | H]; try (split; reflexivity). contradiction.
Qed.

(** [strings.ToLower] sends two bytes to the same byte exactly when they
    are the same but for case. *)
Lemma same_letter_lower_ascii (c d : ascii) :
  same_letter c d ↔ lower_ascii c = lower_ascii d.
Proof.
  split.
  - intros [-> | [H | H]]; [reflexivity| |];
      apply letters_lower_ascii in H as [H1 H2]; congruence.
  - intros H. unfold same_letter.
    destruct (lower_ascii_cases c) as [Hc | Hc], (lower_ascii_cases d) as [Hd | Hd].
    + left. congruence.
    + right. right. rewrite <- Hc, H. exact Hd.
    + right. left. rewrite <- Hd, <- H. exact Hc.
    + left. rewrite H in Hc. revert Hc Hd. generalize (lower_ascii d). intros x.
      unfold letters. rewrite !elem_of_cons, !elem_of_nil. intros Hc Hd.
      repeat destruct Hc as [[= -> ->] | Hc]; try contradiction;
        repeat destruct Hd as [[= ->] | Hd]; try contradiction; reflexivity.
Qed.

Lemma same_ignoring_case_ToLower (a b : string) :
  same_ignoring_case a b ↔ ToLower a = ToLower b.
Proof.
  revert b. induction a as [|c a IH]; intros [|d b]; simpl;
    try (split; [tauto | discriminate]); [tauto|].
  rewrite same_letter_lower_ascii, IH. split.
  - intros [-> ->]. reflexivity.
  - intros [= H1 H2]. auto.
Qed.

Lemma Contains_ToLower (k w : string) :
  ToLower w = w →
  Contains (ToLower k) w = true
  ↔ ∃ pre mid post, k = pre +:+ mid +:+ post ∧ same_ignoring_case mid w.
Proof.
  intros Hw. rewrite Contains_spec. split.
  - intros (a & b & H).
    apply ToLower_app_inv in H as (pre & rest & -> & _ & H).
    apply ToLower_app_inv in H as (mid & post & -> & H & _).
    exists pre, mid, post. split; [reflexivity|].
    apply same_ignoring_case_ToLower. congruence.
  - intros (pre & mid & post & -> & H).
    apply same_ignoring_case_ToLower in H. rewrite Hw in H.
    exists (ToLower pre), (ToLower post).
    rewrite !ToLower_app, H. reflexivity.
Qed.

(** The test the code makes is the one the specification words. *)
Lemma isPIIField_sensitive_key (k : string) :
  isPIIField k = true ↔ sensitive_key k.
Proof.
  unfold isPIIField, sensitive_key.
  rewrite !orb_true_iff, pIIFields_lookup.
  rewrite !Contains_ToLower by reflexivity.
  split.
  - intros [[[H | H] | H] | H].
    + left. exists (ToLower k). split; [exact H|].
      apply same_ignoring_case_ToLower. symmetry. apply ToLower_sensitive_names, H.
    + right. destruct H as (pre & mid & post & H). exists "password", pre, mid, post.
      split; [unfold sensitive_words; rewrite !elem_of_cons; tauto | exact H].
    + right. destruct H as (pre & mid & post & H). exists "token", pre, mid, post.
      split; [unfold sensitive_words; rewrite !elem_of_cons; tauto | exact H].
    + right. destruct H as (pre & mid & post & H). exists "secret", pre, mid, post.
      split; [unfold sensitive_words; rewrite !elem_of_cons; tauto | exact H].
  - intros [(n & Hn & H) | (w & pre & mid & post & Hw & H)].
    + left. left. left. apply same_ignoring_case_ToLower in H.
      rewrite H, (ToLower_sensitive_names n Hn). exact Hn.
    + unfold sensitive_words in Hw. rewrite !elem_of_cons, elem_of_nil in Hw.
      destruct Hw as [-> | [-> | [-> | []]]]; eauto 10.
Qed.

Lemma isPIIField_not_sensitive_key (k : string) :
  isPIIField k = false ↔ ¬ sensitive_key k.
Proof.
  rewrite <- isPIIField_sensitive_key. destruct (isPIIField k); split; congruence.
Qed.

(** ** Serialisation *)













Lemma redactMetadata_no_sensitive_key (m : gmap string any) :
  (∀ k, is_Some (m !! k) → ¬ sensitive_key k) → redactMetadata m = m.
Proof.
  intros H. apply map_eq. intros k. rewrite lookup_redactMetadata.
  destruct (m !! k) as [v|] eqn:Hk; [|reflexivity]. simpl.
  assert (Hns : isPIIField k = false).
  { apply isPIIField_not_sensitive_key, H. rewrite Hk. eauto. }
  rewrite Hns. reflexivity.
Qed.



(** The fields after [UnmarshalJSON]: each is the value of its key when
    the key holds a value of the right JSON type, and is left as it was
    otherwise. *)
Lemma unmarshalMap_fields (m : gmap string any) (e : AppError) :
  unmarshalMap m e
  = mkAppError
      (default (Code e) (as_string (m !! "code")))
      (default (Kind e) (as_string (m !! "kind")))
      (default (InternalMsg e) (as_string (m !! "message")))
      (default (UserMsg e) (as_string (m !! "message")))
      (Cause e) (stackTrace e)
      (default (TraceID e) (as_string (m !! "trace_id")))
      (default (RequestID e) (as_string (m !! "request_id")))
      (default (Timestamp e)
         ((fun ts => default zeroTime (Parse_RFC3339 ts))
            <$> as_string (m !! "timestamp")))
      (Retryable e) (Timeout e)
      (default (Metadata e) (as_map (m !! "metadata"))).
Proof.
  destruct e as [c k im um ca st ti ri ts r to md].
  unfold unmarshalMap.
  destruct (as_string (m !! "code")), (as_string (m !! "kind")),
    (as_string (m !! "message")), (as_string (m !! "trace_id")),
    (as_string (m !! "request_id")), (as_string (m !! "timestamp")),
    (as_map (m !! "metadata")); reflexivity.
Qed.




Example MarshalJSON_sample :
  let m := marshalMap sample_error in
  m !! "code" = Some (AStr "VALIDATION") ∧
  m !! "kind" = Some (AStr "validation") ∧
  m !! "message" = Some (AStr "invalid input") ∧
  m !! "trace_id" = Some (AStr "tid") ∧
  m !! "request_id" = Some (AStr "rid") ∧
  m !! "timestamp" = Some (AStr "2025-01-01T00:00:00Z").
Proof. repeat split; vm_compute; reflexivity. Qed.

Example UnmarshalJSON_sample :
  let m : gmap string any :=
    <["code" := AStr "NOT_FOUND"]> (<["kind" := AStr "not_found"]>
      (<["message" := AStr "resource not found"]> (<["trace_id" := AStr "t1"]> ∅))) in
  ∃ e : AppError,
    UnmarshalJSON doc_Unmarshal m zeroAppError = Some e ∧
    Code e = CodeNotFound ∧ Kind e = KindNotFound ∧
    UserMsg e = "resource not found" ∧ InternalMsg e = "resource not found" ∧
    TraceID e = "t1" ∧ RequestID e = "" ∧ IsZero (Timestamp e) = true.
Proof. eexists. repeat split; vm_compute; reflexivity. Qed.

Example MarshalJSON_redacts_PII :
  let e := New (mkEnv zeroTime "") CodeValidation "internal" "user"
             [WithMetadata (<["password" := AStr "secret123"]>
                (<["Email" := AStr "user@example.com"]>
                   (<["user_id" := AStr "u1"]> ∅)))] in
  ∃ meta, marshalMap e !! "metadata" = Some (AMap meta) ∧
    meta !! "password" = Some (AStr "[REDACTED]") ∧
    meta !! "Email" = Some (AStr "[REDACTED]") ∧
    meta !! "user_id" = Some (AStr "u1").
Proof. eexists. repeat split; vm_compute; reflexivity. Qed.

(** ** Further properties of the package *)

Lemma codeToKind_unlisted (c : string) :
  c ∉ all_codes → codeToKind c = KindOther.
Proof.
  intros H. unfold codeToKind.
  repeat (rewrite one_of_not_elem_of; [|unfold all_codes in H; not_listed H]).
  reflexivity.
Qed.

(** [codeToKind] gives every code of the package its kind, sends every
    other code to other, and answers with an enumerated kind only. *)
Theorem codeToKind_table :
  codeToKind CodeInvalidInput = KindValidation ∧
  codeToKind CodeValidation = KindValidation ∧
  codeToKind CodeNotFound = KindNotFound ∧
  codeToKind CodeConflict = KindConflict ∧
  codeToKind CodeTimeout = KindTimeout ∧
  codeToKind CodeRateLimited = KindRateLimit ∧
  codeToKind CodePermissionDenied = KindAuth ∧
  codeToKind CodeUnauthorized = KindAuth ∧
  codeToKind CodeNetwork = KindNetwork ∧
  codeToKind CodeInternal = KindInternal ∧
  codeToKind CodeVideoDecodeFail = KindInternal ∧
  (∀ c : string, c ∉ all_codes → codeToKind c = KindOther) ∧
  (∀ c : string, codeToKind c ∈ all_kinds).
Proof.
  repeat split; try reflexivity.
  - apply codeToKind_unlisted.
  - intros c. unfold codeToKind, all_kinds. case_ifs; rewrite ?elem_of_cons; tauto.
Qed.

(** [LogLevel] is warn for validation, not_found, forbidden, auth,
    rate_limit, timeout and network, and error for every other kind,
    unauthorized among them. *)
Theorem LogLevel_table (e : AppError) :
  (Kind e ∈ [KindValidation; KindNotFound; KindForbidden; KindAuth; KindRateLimit;
             KindTimeout; KindNetwork] → LogLevel e = LogWarn) ∧
  (Kind e ∉ [KindValidation; KindNotFound; KindForbidden; KindAuth; KindRateLimit;
             KindTimeout; KindNetwork] → LogLevel e = LogError).
Proof.
  unfold LogLevel. split; intros H.
  - rewrite !elem_of_cons, elem_of_nil in H.
    destruct H as [-> | [-> | [-> | [-> | [-> | [-> | [-> | []]]]]]]]; reflexivity.
  - repeat (rewrite one_of_not_elem_of; [|not_listed H]).
    destruct (one_of (Kind e) _); reflexivity.
Qed.

(** The scenario of a missing row: [New] with code NOT_FOUND and no user
    message gives HTTP status 404, log level warn, no retry, and the
    internal message as user message. *)
Theorem New_not_found_scenario (env : Env) :
  let e := New env CodeNotFound "db row missing" "" [] in
  HTTPStatus e = 404%Z ∧ LogLevel e = LogWarn ∧ IsRetryable_method e = false ∧
  UserMsg e = "db row missing" ∧ Timestamp e = time_Now env ∧
  stackTrace e = debug_Stack env.
Proof. repeat split; reflexivity. Qed.

(** Method [Error]: the internal message when there is one, else the user
    message when there is one, else the code. *)
Theorem AppError_Error_cases (e : AppError) :
  (InternalMsg e ≠ "" → AppError_Error e = InternalMsg e) ∧
  (InternalMsg e = "" → UserMsg e ≠ "" → AppError_Error e = UserMsg e) ∧
  (InternalMsg e = "" → UserMsg e = "" → AppError_Error e = Code e).
Proof.
  unfold AppError_Error. repeat split.
  - intros H. apply String.eqb_neq in H. rewrite H. reflexivity.
  - intros -> H. apply String.eqb_neq in H. rewrite H. reflexivity.
  - intros -> ->. reflexivity.
Qed.

(** [WithMetadata] merges key by key: the keys of the option take the
    option's values, the other keys keep theirs. *)
Theorem WithMetadata_merges (m : gmap string any) (e : AppError) :
  Metadata (WithMetadata m e) = m ∪ Metadata e ∧
  (∀ k v, m !! k = Some v → Metadata (WithMetadata m e) !! k = Some v) ∧
  (∀ k, m !! k = None → Metadata (WithMetadata m e) !! k = Metadata e !! k).
Proof.
  assert (H : Metadata (WithMetadata m e) = m ∪ Metadata e).
  { unfold WithMetadata. cbn [Metadata set_Metadata].
    apply (map_fold_weak_ind
             (fun (acc m' : gmap string any) => acc = m' ∪ Metadata e)).
    - rewrite (left_id_L ∅ (∪)). reflexivity.
    - intros i x m' acc Hi ->. rewrite insert_union_l. reflexivity. }
  split; [exact H|]. rewrite H. split.
  - intros k v Hk. apply lookup_union_Some_l, Hk.
  - intros k Hk. apply lookup_union_r, Hk.
Qed.

(** A later option overrides an earlier one on the field both set. *)
Theorem later_option_overrides (e : AppError) (k1 k2 id1 id2 : string) (b1 b2 : bool) :
  Kind (apply_options [WithKind k1; WithKind k2] e) = k2 ∧
  TraceID (apply_options [WithTraceID id1; WithTraceID id2] e) = id2 ∧
  RequestID (apply_options [WithRequestID id1; WithRequestID id2] e) = id2 ∧
  Retryable (apply_options [WithRetryable b1; WithRetryable b2] e) = b2 ∧
  Timeout (apply_options [WithTimeout b1; WithTimeout b2] e) = b2.
Proof. repeat split; reflexivity. Qed.

(** [NewSentinel] builds an error with the given code and kind, the
    message as both messages, and no cause, stack trace or timestamp. *)
Theorem NewSentinel_fields (code msg kind : string) :
  let e := NewSentinel code msg kind in
  Code e = code ∧ Kind e = kind ∧ InternalMsg e = msg ∧ UserMsg e = msg ∧
  Cause e = None ∧ stackTrace e = "" ∧ IsZero (Timestamp e) = true ∧
  Retryable e = false ∧ Timeout e = false.
Proof. repeat split; reflexivity. Qed.

(** [NewFromError] returns nil on nil, an [AppError] as it is, and for
    any other error a new [AppError] that has the error as cause, its text
    as internal message and the given code. *)
Theorem NewFromError_cases (env : Env) (code userMsg : string) :
  NewFromError env None code userMsg = None ∧
  (∀ ae : AppError, NewFromError env (Some (Err_AppError ae)) code userMsg = Some ae) ∧
  (∀ x : error,
     (∀ ae, x ≠ Err_AppError ae) →
     ∃ ae : AppError,
       NewFromError env (Some x) code userMsg = Some ae ∧
       Cause ae = Some x ∧ InternalMsg ae = Error x ∧ Code ae = code ∧
       Kind ae = codeToKind code).
Proof.
  split; [reflexivity|]. split; [reflexivity|].
  intros x Hx.
  destruct x as [ae| | | | | | |]; [exfalso; apply (Hx ae); reflexivity|..];
    (eexists; split; [reflexivity|]; unfold New; cbn [apply_options foldl];
     destruct (userMsg =? ""); repeat split; reflexivity).
Qed.

(** The chain-aware checks: nil is neither retryable nor a timeout; an
    error from [NewTimeoutError] is both, also once wrapped; the sentinel
    [ErrTimeout] is a timeout and [ErrNotFound] is neither. *)
Theorem IsRetryable_IsTimeoutErr_cases (env : Env) (deadline : Time) (m : string) :
  let te := Err_TimeoutError (NewTimeoutError env deadline []) in
  IsRetryable None = false ∧ IsTimeoutErr None = false ∧
  IsRetryable (Some te) = true ∧ IsTimeoutErr (Some te) = true ∧
  IsRetryable (Wrap (Some te) m) = true ∧ IsTimeoutErr (Wrap (Some te) m) = true ∧
  IsTimeoutErr (Some (Err_AppError ErrTimeout)) = true ∧
  IsRetryable (Some (Err_AppError ErrNotFound)) = false ∧
  IsTimeoutErr (Some (Err_AppError ErrNotFound)) = false.
Proof. repeat split; reflexivity. Qed.

(** ** Stack frames *)

Lemma length_Split (s : string) (sep : ascii) :
  length (Split s sep) = S (count_byte s sep).
Proof.
  induction s as [|c s IH]; simpl; [reflexivity|].
  destruct (Split s sep) as [|l ls]; simpl in IH; [discriminate|].
  destruct (bool_decide (c = sep)); simpl; lia.
Qed.

Lemma length_parseFrames (Sscanf_d : string → option Z) (lines : list string) :
  length (parseFrames Sscanf_d lines) = (length lines / 2)%nat.
Proof.
  assert (H : ∀ n (l : list string), (length l ≤ n)%nat →
              length (parseFrames Sscanf_d l) = (length l / 2)%nat).
  { induction n as [|n IH]; intros l Hl.
    - destruct l; [reflexivity | simpl in Hl; lia].
    - destruct l as [|a [|b l]]; [reflexivity | reflexivity |].
      cbn [parseFrames length]. rewrite IH by (simpl in Hl; lia).
      change (S (S (length l))) with (1 * 2 + length l)%nat.
      rewrite Nat.div_add_l by lia. lia. }
  apply (H (length lines)). lia.
Qed.

(** [parseStackFrames] returns no frame for an empty trace and at least
    one for any other: a frame for each pair of lines after the first
    line, that is half the number of line feeds in the trace, or the one
    placeholder frame when the trace has fewer than two line feeds. *)
Theorem parseStackFrames_frame_count (Sscanf_d : string → option Z) (b : string) :
  parseStackFrames Sscanf_d "" = [] ∧
  (b ≠ "" →
   length (parseStackFrames Sscanf_d b) = Nat.max 1 (count_byte b (ascii_of_nat 10) / 2) ∧
   ((count_byte b (ascii_of_nat 10) < 2)%nat →
    parseStackFrames Sscanf_d b = [mkFrame "unknown" 0 "unknown"])).
Proof.
  split; [reflexivity|]. intros Hb.
  unfold parseStackFrames.
  destruct b as [|c b]; [congruence|]. cbn [String.length Nat.eqb].
  pose proof (length_parseFrames Sscanf_d (tail (Split (String c b) (ascii_of_nat 10)))) as Hlen.
  rewrite length_tl, length_Split in Hlen.
  replace (S (count_byte (String c b) (ascii_of_nat 10)) - 1)%nat
    with (count_byte (String c b) (ascii_of_nat 10)) in Hlen by lia.
  set (n := count_byte (String c b) (ascii_of_nat 10)) in *.
  destruct (parseFrames Sscanf_d _) as [|f fs] eqn:Hf.
  - cbn [length] in Hlen. split; [|reflexivity].
    rewrite <- Hlen. reflexivity.
  - split.
    + rewrite Hlen. cbn [length] in Hlen. lia.
    + intros Hn. rewrite (Nat.div_small n 2) in Hlen by lia. discriminate.
Qed.

Lemma TrimLeftSpace_head (s : string) (c : ascii) (r : string) :
  TrimLeftSpace s = String c r → isSpace c = false.
Proof.
  induction s as [|d s IH]; simpl; [discriminate|].
  destruct (isSpace d) eqn:Hd; [exact IH|].
  intros H. injection H as <- _. exact Hd.
Qed.

Lemma TrimRightSpace_head (s : string) (c : ascii) (r : string) :
  TrimRightSpace s = String c r → ∃ r', s = String c r'.
Proof.
  destruct s as [|d s]; simpl; [discriminate|].
  destruct (TrimRightSpace s); [destruct (isSpace d); [discriminate|]|];
    intros H; injection H as <- _; eauto.
Qed.

Lemma TrimSpace_head (s : string) (c : ascii) (r : string) :
  TrimSpace s = String c r → isSpace c = false.
Proof.
  unfold TrimSpace. intros H.
  apply TrimRightSpace_head in H as [r' H].
  apply TrimLeftSpace_head in H. exact H.
Qed.

Lemma TrimPrefix_tab_TrimSpace (s : string) (idx : nat) :
  TrimPrefix (substring 0 idx (TrimSpace s)) tab = substring 0 idx (TrimSpace s).
Proof.
  unfold TrimPrefix.
  destruct (TrimSpace s) as [|c r] eqn:Ht.
  - destruct idx; reflexivity.
  - destruct idx as [|idx]; [reflexivity|].
    cbn [substring HasPrefix tab].
    destruct (bool_decide (c = ascii_of_nat 9)) eqn:Hc; [|reflexivity].
    apply bool_decide_eq_true in Hc. subst c.
    apply TrimSpace_head in Ht. discriminate.
Qed.

Lemma lookup_parseFrames (Sscanf_d : string → option Z) (lines : list string) (k : nat) :
  parseFrames Sscanf_d lines !! k =
  match lines !! (2 * k)%nat, lines !! (2 * k + 1)%nat with
  | Some a, Some b => Some (parseFrame Sscanf_d a b)
  | _, _ => None
  end.
Proof.
  revert lines. induction k as [|k IH]; intros lines.
  - destruct lines as [|a [|b l]]; reflexivity.
  - destruct lines as [|a [|b l]]; [reflexivity | reflexivity |].
    cbn [parseFrames]. rewrite lookup_cons_ne_0 by lia. cbn [Nat.pred].
    rewrite IH.
    replace (2 * S k)%nat with (S (S (2 * k))) by lia.
    replace (S (S (2 * k)) + 1)%nat with (S (S (2 * k + 1))) by lia.
    reflexivity.
Qed.

(** The frames of a trace with at least two line feeds: frame [k] is read
    off lines [2k+1] and [2k+2] of the trace (the first line is skipped, a
    last line without a partner is dropped).  Its function is the first of
    the two lines without the white space around it; when the second,
    trimmed likewise, has a colon, its file is what stands before the last
    colon (removing a leading tab never changes it) and its line is the
    integer scanned after the colon, or 0; without a colon the file is
    empty and the line 0. *)
Theorem parseStackFrames_frames (Sscanf_d : string → option Z) (b : string) :
  (2 ≤ count_byte b (ascii_of_nat 10))%nat →
  let lines := Split b (ascii_of_nat 10) in
  (∀ k : nat,
     parseStackFrames Sscanf_d b !! k =
     match lines !! (2 * k + 1)%nat, lines !! (2 * k + 2)%nat with
     | Some a, Some l => Some (parseFrame Sscanf_d a l)
     | _, _ => None
     end) ∧
  (∀ a l : string,
     Func (parseFrame Sscanf_d a l) = TrimSpace a ∧
     (∀ idx : nat,
        LastIndex (TrimSpace l) ":" = Some idx →
        File (parseFrame Sscanf_d a l) = substring 0 idx (TrimSpace l) ∧
        Line (parseFrame Sscanf_d a l)
        = default 0%Z
            (Sscanf_d (substring (idx + 1) (String.length (TrimSpace l) - (idx + 1))
                         (TrimSpace l)))) ∧
     (LastIndex (TrimSpace l) ":" = None →
      File (parseFrame Sscanf_d a l) = "" ∧ Line (parseFrame Sscanf_d a l) = 0%Z)).
Proof.
  intros Hn lines. split.
  - intros k. unfold parseStackFrames.
    destruct b as [|c b]; [simpl in Hn; lia|]. cbn [String.length Nat.eqb].
    fold lines.
    pose proof (length_parseFrames Sscanf_d (tail lines)) as Hlen.
    unfold lines in Hlen at 2. rewrite length_tl, length_Split in Hlen.
    assert (Hpos : (1 ≤ length (parseFrames Sscanf_d (tail lines)))%nat).
    { rewrite Hlen.
      replace (S (count_byte (String c b) (ascii_of_nat 10)) - 1)%nat
        with (count_byte (String c b) (ascii_of_nat 10)) by lia.
      apply (Nat.Div0.div_le_mono _ _ 2) in Hn.
      rewrite Nat.div_same in Hn by lia. exact Hn. }
    destruct (parseFrames Sscanf_d (tail lines)) as [|f fs] eqn:Hf;
      [simpl in Hpos; lia|].
    rewrite <- Hf, lookup_parseFrames, !lookup_tail.
    replace (S (2 * k)) with (2 * k + 1)%nat by lia.
    replace (S (2 * k + 1)) with (2 * k + 2)%nat by lia.
    reflexivity.
  - intros a l. unfold parseFrame. split; [destruct (LastIndex _ _); reflexivity|].
    split.
    + intros idx ->. cbn [File Line]. rewrite TrimPrefix_tab_TrimSpace. auto.
    + intros ->. auto.
Qed.

(** ** Chain-aware checks *)

Lemma as_AppError_wrap (x : error) (m : string) :
  as_AppError (Err_wrapError (mkwrapError m (Some x))) = as_AppError x.
Proof. reflexivity. Qed.

Lemma as_TimeoutError_wrap (x : error) (m : string) :
  as_TimeoutError (Err_wrapError (mkwrapError m (Some x))) = as_TimeoutError x.
Proof. reflexivity. Qed.

Lemma is_loop_wrap_AppError (x : error) (m : string) (ae : AppError) :
  is_loop (Err_wrapError (mkwrapError m (Some x))) (Err_AppError ae)
  = is_loop x (Err_AppError ae).
Proof.
  cbn [is_loop cause]. rewrite bool_decide_eq_false_2 by discriminate. reflexivity.
Qed.

(** Wrapping is transparent to the chain-aware checks: an error wrapped
    by [Wrap] is retryable, and a timeout, exactly when the error is. *)
Theorem IsRetryable_IsTimeoutErr_Wrap (err : option error) (m : string) :
  IsRetryable (Wrap err m) = IsRetryable err ∧
  IsTimeoutErr (Wrap err m) = IsTimeoutErr err.
Proof.
  destruct err as [x|]; [|split; reflexivity].
  unfold IsRetryable, IsTimeoutErr, Wrap.
  rewrite as_AppError_wrap, as_TimeoutError_wrap.
  split; [reflexivity|].
  destruct (as_AppError x); [reflexivity|].
  destruct (as_TimeoutError x); [reflexivity|].
  unfold Is. apply is_loop_wrap_AppError.
Qed.

(** The first [AppError] of the chain decides.  A [TimeoutError] whose
    cause is an [AppError] is retryable, and a timeout, when that cause
    is, whatever its own flags are; with no cause, it is both. *)
Theorem IsRetryable_TimeoutError_cause (env : Env) (deadline : Time) (ae : AppError) :
  let te := NewTimeoutError env deadline [WithCause (Some (Err_AppError ae))] in
  IsRetryable_method (TimeoutError_AppError te) = true ∧
  IsRetryable (Some (Err_TimeoutError te)) = Retryable ae ∧
  IsTimeoutErr (Some (Err_TimeoutError te)) = IsTimeout ae ∧
  IsRetryable (Some (Err_TimeoutError (NewTimeoutError env deadline []))) = true ∧
  IsTimeoutErr (Some (Err_TimeoutError (NewTimeoutError env deadline []))) = true.
Proof. repeat split; reflexivity. Qed.

(** ** Variants *)

(** The constructors of the variants set the kind after the options have
    run: whatever the options, a kind override among them, a rate-limit
    error has kind rate_limit and status 429, a permission error kind
    forbidden and status 403, a field error kind validation and status
    400, a timeout error kind timeout and status 408, and each logs at
    level warn. *)
Theorem variant_constructors_fix_kind
  (env : Env) (opts : list Option) (remaining : Z) (t : Time)
  (role action resource field reason : string) :
  let le := LimitError_AppError (NewLimitError env remaining t opts) in
  let re := RBACError_AppError (NewRBACError env role action resource opts) in
  let fe := FieldError_AppError (FieldErrorf env field reason) in
  let te := TimeoutError_AppError (NewTimeoutError env t opts) in
  (Kind le = KindRateLimit ∧ HTTPStatus le = 429%Z ∧ LogLevel le = LogWarn) ∧
  (Kind re = KindForbidden ∧ HTTPStatus re = 403%Z ∧ LogLevel re = LogWarn) ∧
  (Kind fe = KindValidation ∧ HTTPStatus fe = 400%Z ∧ LogLevel fe = LogWarn) ∧
  (Kind te = KindTimeout ∧ HTTPStatus te = 408%Z ∧ LogLevel te = LogWarn).
Proof. repeat split; reflexivity. Qed.

(** With options that leave [UserMsg] alone, the public message of a
    variant is the fixed text its constructor gives, while the text of a
    permission error for logs names the role, the action and the
    resource when no option changes it. *)
Theorem PublicError_of_variants
  (env : Env) (opts : list Option) (remaining : Z) (t : Time)
  (role action resource field reason : string) :
  Forall keeps_UserMsg opts →
  PublicError (Some (Err_LimitError (NewLimitError env remaining t opts)))
  = "rate limit exceeded" ∧
  PublicError (Some (Err_RBACError (NewRBACError env role action resource opts)))
  = "permission denied" ∧
  PublicError (Some (Err_TimeoutError (NewTimeoutError env t opts)))
  = "request timed out" ∧
  PublicError (Some (Err_FieldError (FieldErrorf env field reason)))
  = "invalid " +:+ field +:+ ": " +:+ reason ∧
  Error (Err_RBACError (NewRBACError env role action resource []))
  = "permission denied: " +:+ role +:+ " cannot " +:+ action +:+ " on " +:+ resource.
Proof.
  intros H.
  assert (H' : Forall keeps_UserMsg (opts ++ [WithTimeout true; WithRetryable true])).
  { apply Forall_app. split; [exact H | repeat constructor]. }
  cbn [PublicError NewLimitError NewRBACError NewTimeoutError FieldErrorf
       LimitError_AppError RBACError_AppError TimeoutError_AppError
       FieldError_AppError set_Kind UserMsg].
  rewrite !New_UserMsg by (assumption || constructor).
  repeat split.
Qed.

(** ** Construction *)

Lemma apply_options_cons (o : Option) (opts : list Option) (e : AppError) :
  apply_options (o :: opts) e = apply_options opts (o e).
Proof. reflexivity. Qed.

(** The kind of a new error is the kind of its code, and so is its HTTP
    status, unless an option sets the kind: then the last such option
    decides, whatever the code.  [opts2] are options that leave the kind
    alone. *)
Theorem New_kind_default_and_override
  (env : Env) (code internalMsg userMsg k : string) (opts1 opts2 : list Option) :
  Forall keeps_Kind opts2 →
  Kind (New env code internalMsg userMsg opts2) = codeToKind code ∧
  HTTPStatus (New env code internalMsg userMsg opts2)
  = kindToHTTPStatus (codeToKind code) ∧
  Kind (New env code internalMsg userMsg (opts1 ++ WithKind k :: opts2)) = k ∧
  HTTPStatus (New env code internalMsg userMsg (opts1 ++ WithKind k :: opts2))
  = kindToHTTPStatus k.
Proof.
  intros H.
  assert (H1 : Kind (New env code internalMsg userMsg opts2) = codeToKind code).
  { unfold New. rewrite apply_options_keeps_Kind by exact H.
    destruct (userMsg =? ""); reflexivity. }
  assert (H2 : Kind (New env code internalMsg userMsg (opts1 ++ WithKind k :: opts2)) = k).
  { unfold New. rewrite apply_options_app, apply_options_cons.
    rewrite apply_options_keeps_Kind by exact H. reflexivity. }
  unfold HTTPStatus. rewrite H1, H2. auto.
Qed.

Lemma New_kind_default_and_override_witness :
  Forall keeps_Kind [WithTraceID "t-1"; WithRetryable true] ∧
  HTTPStatus (New (mkEnv zeroTime "") CodeInternal "msg" "msg"
                ([WithKind KindNotFound] ++ WithKind KindConflict
                   :: [WithTraceID "t-1"; WithRetryable true])) = 409%Z.
Proof.
  assert (H : Forall keeps_Kind [WithTraceID "t-1"; WithRetryable true]).
  { repeat constructor. }
  split; [exact H|].
  exact (proj2 (proj2 (proj2 (New_kind_default_and_override
                  (mkEnv zeroTime "") CodeInternal "msg" "msg" KindConflict
                  [WithKind KindNotFound] _ H)))).
Defined.

(** [NewFromError] keeps a foreign error in the chain: the new error has
    it as cause, [Is] finds it, the root cause is that of the error, and
    the text is the text of the error when that is not empty. *)
Theorem NewFromError_keeps_error (env : Env) (x : error) (code userMsg : string) :
  (∀ ae, x ≠ Err_AppError ae) →
  ∃ ae : AppError,
    NewFromError env (Some x) code userMsg = Some ae ∧
    Unwrap (Some (Err_AppError ae)) = Some x ∧
    Is (Some (Err_AppError ae)) (Some x) = true ∧
    RootCause (Some (Err_AppError ae)) = RootCause (Some x) ∧
    (Error x ≠ "" → Error (Err_AppError ae) = Error x) ∧
    (userMsg ≠ "" → PublicError (Some (Err_AppError ae)) = userMsg).
Proof.
  intros Hx.
  exists (New env code (Error x) userMsg [WithCause (Some x)]).
  split.
  { destruct x as [ae| | | | | | |]; [exfalso; apply (Hx ae); reflexivity|..];
      reflexivity. }
  assert (Hc : Cause (New env code (Error x) userMsg [WithCause (Some x)]) = Some x).
  { unfold New. destruct (userMsg =? ""); reflexivity. }
  assert (Hi : InternalMsg (New env code (Error x) userMsg [WithCause (Some x)]) = Error x).
  { unfold New. destruct (userMsg =? ""); reflexivity. }
  split; [cbn [Unwrap Unwrap_method]; exact Hc|].
  split.
  { unfold Is. rewrite is_loop_unfold. cbn [Unwrap_method]. rewrite Hc, is_loop_refl.
    apply orb_true_r. }
  split.
  { cbn [RootCause]. rewrite RootCause_loop_unfold. cbn [Unwrap_method].
    rewrite Hc. reflexivity. }
  split.
  - intros Hne. cbn [Error]. unfold AppError_Error. rewrite Hi.
    apply String.eqb_neq in Hne. rewrite Hne. reflexivity.
  - intros Hne. cbn [PublicError].
    rewrite New_UserMsg by (repeat constructor).
    apply String.eqb_neq in Hne. rewrite Hne. cbv iota. rewrite Hne. reflexivity.
Qed.

Lemma NewFromError_keeps_error_witness :
  ∃ ae : AppError,
    NewFromError (mkEnv zeroTime "") (Some (Err_foreign "stdlib error" None))
      CodeInternal "something went wrong" = Some ae ∧
    Is (Some (Err_AppError ae)) (Some (Err_foreign "stdlib error" None)) = true.
Proof.
  destruct (NewFromError_keeps_error (mkEnv zeroTime "")
              (Err_foreign "stdlib error" None) CodeInternal "something went wrong")
    as (ae & H1 & _ & H2 & _).
  - intros ae. discriminate.
  - exists ae. split; assumption.
Defined.

(** ** Joined errors *)

Lemma nonNil_Some (l : list error) : nonNil (Some <$> l) = l.
Proof.
  induction l as [|x l IH]; [reflexivity|].
  rewrite fmap_cons. cbn [nonNil]. rewrite IH. reflexivity.
Qed.

(** An error joined from two or more errors is opaque to the helpers that
    follow a single cause: it is its own root cause, its text is the texts
    of the errors on lines of their own, its public message is the
    fallback whatever the errors are, and when the first of them is an
    [AppError] that one alone decides whether it is retryable. *)
Theorem MultiError_of_several (a b : error) (rest : list error) :
  let joined := MultiError (Some <$> a :: b :: rest) in
  joined = Some (Err_joinError (a :: b :: rest)) ∧
  RootCause joined = joined ∧
  Unwrap joined = None ∧
  (∀ x, joined = Some x → Error x = String.concat newline (Error <$> a :: b :: rest)) ∧
  PublicError joined = "an error occurred" ∧
  (∀ ae : AppError, a = Err_AppError ae →
     IsRetryable joined = Retryable ae ∧ IsTimeoutErr joined = IsTimeout ae).
Proof.
  cbv zeta. unfold MultiError. rewrite nonNil_Some.
  split; [reflexivity|]. split; [reflexivity|]. split; [reflexivity|].
  split; [intros x [= <-]; reflexivity|]. split; [reflexivity|].
  intros ae ->. split; reflexivity.
Qed.

(** ** Redaction and serialisation, continued *)







Lemma not_in_json_keys (k : string) :
  k ∉ json_keys →
  k ≠ "code" ∧ k ≠ "kind" ∧ k ≠ "message" ∧ k ≠ "trace_id" ∧ k ≠ "request_id" ∧
  k ≠ "timestamp" ∧ k ≠ "metadata".
Proof.
  unfold json_keys. rewrite !not_elem_of_cons. tauto.
Qed.

(** What [UnmarshalJSON] leaves alone.  An empty object changes nothing
    in the receiver; a key that is none of the seven of the wire format is
    ignored; a value of the wrong JSON type under one of the six string
    keys, or under metadata, is skipped like an absent key, with no error;
    and reading the same object twice is reading it once. *)
Theorem unmarshalMap_skips (m : gmap string any) (e : AppError) :
  unmarshalMap ∅ e = e ∧
  (∀ (k : string) (v : any),
     k ∉ json_keys → unmarshalMap (<[k := v]> m) e = unmarshalMap m e) ∧
  (∀ (k : string) (v : any),
     k ∈ json_keys → k ≠ "metadata" → (∀ s, v ≠ AStr s) →
     unmarshalMap (<[k := v]> m) e = unmarshalMap (delete k m) e) ∧
  (∀ v : any,
     (∀ meta, v ≠ AMap meta) →
     unmarshalMap (<["metadata" := v]> m) e = unmarshalMap (delete "metadata" m) e) ∧
  unmarshalMap m (unmarshalMap m e) = unmarshalMap m e.
Proof.
  split; [destruct e; reflexivity|]. split; [|split; [|split]].
  - intros k v Hk. apply not_in_json_keys in Hk as (H1 & H2 & H3 & H4 & H5 & H6 & H7).
    unfold unmarshalMap. rewrite !lookup_insert_ne by congruence. reflexivity.
  - intros k v Hk Hmeta Hv.
    assert (Hs : as_string (Some v) = None).
    { destruct v; try reflexivity. exfalso. eapply Hv. reflexivity. }
    unfold json_keys in Hk. rewrite !elem_of_cons, elem_of_nil in Hk.
    unfold unmarshalMap.
    destruct Hk as [-> | [-> | [-> | [-> | [-> | [-> | [-> | []]]]]]]];
      try congruence;
      rewrite ?lookup_insert_eq, ?lookup_delete_eq, ?Hs;
      rewrite ?lookup_insert_ne, ?lookup_delete_ne by discriminate;
      reflexivity.
  - intros v Hv.
    assert (Hs : as_map (Some v) = None).
    { destruct v; try reflexivity. exfalso. eapply Hv. reflexivity. }
    unfold unmarshalMap.
    rewrite ?lookup_insert_eq, ?lookup_delete_eq, ?Hs.
    rewrite ?lookup_insert_ne, ?lookup_delete_ne by discriminate.
    reflexivity.
  - rewrite (unmarshalMap_fields m (unmarshalMap m e)), (unmarshalMap_fields m e).
    cbn [Code Kind InternalMsg UserMsg Cause stackTrace TraceID RequestID Timestamp
         Retryable Timeout Metadata].
    f_equal; match goal with |- context [default _ ?o] => destruct o; reflexivity end.
Qed.

(** ** Sentinels *)

(** Every sentinel is a plain error: no cause, no stack trace, no
    timestamp, not retryable, one non-empty message for logs and clients
    alike, and itself as root cause.  All but [ErrForbidden] and
    [ErrUnauthorized] carry the kind of their code, and all but
    [ErrUnauthorized] the HTTP status of their code. *)
Theorem sentinels_plain_and_consistent :
  Forall (fun s : AppError =>
            Cause s = None ∧ stackTrace s = "" ∧ IsZero (Timestamp s) = true ∧
            Retryable s = false ∧ Metadata s = ∅ ∧
            UserMsg s ≠ "" ∧
            PublicError (Some (Err_AppError s)) = Error (Err_AppError s) ∧
            RootCause (Some (Err_AppError s)) = Some (Err_AppError s) ∧
            (s ≠ ErrForbidden → s ≠ ErrUnauthorized → Kind s = codeToKind (Code s)) ∧
            (s ≠ ErrUnauthorized → HTTPStatus s = kindToHTTPStatus (codeToKind (Code s))))
         all_sentinels ∧
  Kind ErrForbidden = KindForbidden ∧ codeToKind (Code ErrForbidden) = KindAuth ∧
  (HTTPStatus <$> all_sentinels) = [400; 404; 409; 408; 429; 403; 401; 500; 500]%Z ∧
  (∀ s : AppError, s ∈ all_sentinels →
     (IsTimeoutErr (Some (Err_AppError s)) = true ↔ s = ErrTimeout)).
Proof.
  split; [|split; [reflexivity | split; [reflexivity | split; [reflexivity|]]]].
  - unfold all_sentinels.
    repeat (apply Forall_cons; split;
            [repeat split; try reflexivity; try discriminate; intros; try congruence|]).
    apply Forall_nil_2.
  - intros s Hs. unfold all_sentinels in Hs. rewrite !elem_of_cons, elem_of_nil in Hs.
    destruct Hs as [-> | [-> | [-> | [-> | [-> | [-> | [-> | [-> | [-> | []]]]]]]]]];
      split; intros H; try reflexivity; try discriminate.
Qed.

Lemma parseStackFrames_frames_witness :
  parseStackFrames scan_digits sample_trace !! 0%nat
  = Some (mkFrame "/app/main.go" 12 "main.run()").
Proof.
  assert (H : (2 ≤ count_byte sample_trace (ascii_of_nat 10))%nat)
    by (vm_compute; lia).
  rewrite (proj1 (parseStackFrames_frames scan_digits sample_trace H) 0%nat).
  reflexivity.
Defined.

Lemma PublicError_of_variants_witness :
  Forall keeps_UserMsg [WithTraceID "t-1"; WithKind KindInternal] ∧
  PublicError
    (Some (Err_RBACError
             (NewRBACError (mkEnv zeroTime "") "guest" "delete" "report"
                [WithTraceID "t-1"; WithKind KindInternal])))
  = "permission denied".
Proof.
  assert (H : Forall keeps_UserMsg [WithTraceID "t-1"; WithKind KindInternal]).
  { repeat constructor. }
  split; [exact H|].
  exact (proj1 (proj2 (PublicError_of_variants (mkEnv zeroTime "") _ 0 zeroTime
                         "guest" "delete" "report" "" "" H))).
Defined.

(** * Package [converter] *)

Lemma all_bytes_string_of_uint (d : Decimal.uint) :
  all_bytes isDigit (NilEmpty.string_of_uint d) = true.
Proof. induction d; simpl; try rewrite IHd; reflexivity. Qed.

Lemma N_to_uint_nonnil (n : N) : N.to_uint n ≠ Decimal.Nil.
Proof.
  destruct n as [|p]; simpl; [discriminate|].
  apply DecimalPos.Unsigned.to_uint_nonnil.
Qed.

Lemma itoa_NilEmpty (n : N) : itoa n = NilEmpty.string_of_uint (N.to_uint n).
Proof.
  unfold itoa, NilZero.string_of_uint.
  pose proof (N_to_uint_nonnil n). destruct (N.to_uint n); congruence.
Qed.

Lemma all_bytes_itoa (n : N) : all_bytes isDigit (itoa n) = true.
Proof. rewrite itoa_NilEmpty. apply all_bytes_string_of_uint. Qed.

Lemma itoa_nonempty (n : N) : itoa n ≠ "".
Proof.
  rewrite itoa_NilEmpty. pose proof (N_to_uint_nonnil n).
  destruct (N.to_uint n); simpl; congruence.
Qed.

Lemma isDigit_cases (c : ascii) :
  isDigit c = true →
  c ∈ ["0"; "1"; "2"; "3"; "4"; "5"; "6"; "7"; "8"; "9"]%char.
Proof.
  destruct c as [[] [] [] [] [] [] [] []]; intros H; try discriminate H;
    rewrite !elem_of_cons; tauto.
Qed.

Lemma isDigit_not_space (c : ascii) : isDigit c = true → isSpace c = false.
Proof.
  intros H. apply isDigit_cases in H. rewrite !elem_of_cons, elem_of_nil in H.
  repeat destruct H as [-> | H]; try reflexivity. contradiction.
Qed.

Lemma split_sign_digit (c : ascii) (r : string) :
  isDigit c = true → split_sign (String c r) = (false, String c r).
Proof.
  intros H. apply isDigit_cases in H. rewrite !elem_of_cons, elem_of_nil in H.
  repeat destruct H as [-> | H]; try reflexivity. contradiction.
Qed.

Lemma itoa_head (n : N) : ∃ c r, itoa n = String c r ∧ isDigit c = true.
Proof.
  pose proof (all_bytes_itoa n) as H. pose proof (itoa_nonempty n) as Hne.
  destruct (itoa n) as [|c r]; [congruence|].
  simpl in H. apply andb_true_iff in H as [Hc _]. eauto.
Qed.

Lemma digits_value_le (s : string) (n : N) : (n ≤ digits_value s n)%N.
Proof.
  revert n. induction s as [|c s IH]; intros n; simpl; [lia|].
  etransitivity; [|apply IH]. lia.
Qed.

Lemma digits_value_Pos (d : Decimal.uint) (p : positive) :
  digits_value (NilEmpty.string_of_uint d) (N.pos p) = N.pos (Pos.of_uint_acc d p).
Proof.
  revert p. induction d; intros p; cbn [NilEmpty.string_of_uint digits_value Pos.of_uint_acc];
    [reflexivity|..];
    match goal with
    | |- digits_value _ ?n = N.pos (Pos.of_uint_acc _ ?q) =>
        replace n with (N.pos q) by (vm_compute N_of_ascii; lia); apply IHd
    end.
Qed.

Lemma digits_value_of_uint (d : Decimal.uint) :
  digits_value (NilEmpty.string_of_uint d) 0 = N.of_uint d.
Proof.
  unfold N.of_uint.
  induction d; cbn [NilEmpty.string_of_uint digits_value Pos.of_uint];
    [reflexivity|exact IHd|..];
    match goal with
    | |- digits_value _ ?n = N.pos (Pos.of_uint_acc _ ?q) =>
        replace n with (N.pos q) by (vm_compute; reflexivity);
        apply digits_value_Pos
    end.
Qed.

(** The digits [itoa] writes for a number write that number. *)
Lemma digits_value_itoa (n : N) : digits_value (itoa n) 0 = n.
Proof.
  rewrite itoa_NilEmpty, digits_value_of_uint. apply DecimalN.Unsigned.of_to.
Qed.

Lemma isDigit_value (c : ascii) : isDigit c = true → (N_of_ascii c - 48 ≤ 9)%N.
Proof.
  intros H. apply isDigit_cases in H. rewrite !elem_of_cons, elem_of_nil in H.
  repeat destruct H as [-> | H]; try (vm_compute; discriminate). contradiction.
Qed.

(** On digits alone the loop returns the number they write, or the range
    error when that number is beyond 64 bits. *)
Lemma ParseUint_loop_digits (s : string) (n : N) :
  all_bytes isDigit s = true → (n ≤ maxUint64)%N →
  ParseUint_loop s n
  = if (digits_value s n <=? maxUint64)%N then number (digits_value s n)
    else range_error.
Proof.
  revert n. induction s as [|c s IH]; intros n Hs Hn; cbn [ParseUint_loop digits_value].
  - apply N.leb_le in Hn. rewrite Hn. reflexivity.
  - cbn [all_bytes] in Hs. apply andb_true_iff in Hs as [Hc Hs]. rewrite Hc.
    pose proof (isDigit_value c Hc) as Hd.
    set (d := (N_of_ascii c - 48)%N) in *.
    pose proof (digits_value_le s (n * 10 + d)) as Hle.
    destruct (N.leb_spec cutoff n) as [Hcut|Hcut].
    + change cutoff with 1844674407370955162%N in Hcut.
      destruct (N.leb_spec (digits_value s (n * 10 + d)) maxUint64)
        as [H|H]; [|reflexivity].
      exfalso. unfold maxUint64 in H. lia.
    + destruct (N.ltb_spec maxUint64 (n * 10 + d)) as [Hov|Hov].
      * destruct (N.leb_spec (digits_value s (n * 10 + d)) maxUint64)
          as [H|H]; [exfalso; lia|reflexivity].
      * apply IH; assumption.
Qed.

(** Before a byte that is no digit the loop returns the syntax error,
    unless the digits before that byte already write a number beyond 64
    bits: then it has returned the range error. *)
Lemma ParseUint_loop_bad_byte (pre rest : string) (c : ascii) (n : N) :
  all_bytes isDigit pre = true → isDigit c = false → (n ≤ maxUint64)%N →
  ParseUint_loop (pre +:+ String c rest) n
  = if (digits_value pre n <=? maxUint64)%N then syntax_error else range_error.
Proof.
  revert n. induction pre as [|a pre IH]; intros n Hs Hc Hn.
  - change ("" +:+ String c rest) with (String c rest).
    cbn [ParseUint_loop digits_value]. rewrite Hc.
    apply N.leb_le in Hn. rewrite Hn. reflexivity.
  - change (String a pre +:+ String c rest) with (String a (pre +:+ String c rest)).
    cbn [ParseUint_loop digits_value].
    cbn [all_bytes] in Hs. apply andb_true_iff in Hs as [Ha Hs]. rewrite Ha.
    pose proof (isDigit_value a Ha) as Hd.
    set (d := (N_of_ascii a - 48)%N) in *.
    pose proof (digits_value_le pre (n * 10 + d)) as Hle.
    destruct (N.leb_spec cutoff n) as [Hcut|Hcut].
    + change cutoff with 1844674407370955162%N in Hcut.
      destruct (N.leb_spec (digits_value pre (n * 10 + d)) maxUint64)
        as [H|H]; [|reflexivity].
      exfalso. unfold maxUint64 in H. lia.
    + destruct (N.ltb_spec maxUint64 (n * 10 + d)) as [Hov|Hov].
      * destruct (N.leb_spec (digits_value pre (n * 10 + d)) maxUint64)
          as [H|H]; [exfalso; lia|reflexivity].
      * apply IH; assumption.
Qed.

Lemma ParseUint_itoa (n : N) :
  ParseUint (itoa n) = if (n <=? maxUint64)%N then number n else range_error.
Proof.
  unfold ParseUint. pose proof (itoa_nonempty n) as Hne.
  apply String.eqb_neq in Hne. rewrite Hne.
  rewrite ParseUint_loop_digits by (try apply all_bytes_itoa; unfold maxUint64; lia).
  rewrite digits_value_itoa. reflexivity.
Qed.

Lemma ParseInt10_unsigned (s : string) (n : N) :
  s ≠ "" → (split_sign s).1 = false →
  ParseUint (split_sign s).2
  = (if (n <=? maxUint64)%N then number n else range_error) →
  ParseInt10 s = Z.min maxInt64 (Z.of_N n).
Proof.
  intros Hne Hsign Hscan. unfold ParseInt10.
  apply String.eqb_neq in Hne. rewrite Hne.
  destruct (split_sign s) as [neg digits]. cbn [fst snd] in Hsign, Hscan.
  subst neg. rewrite Hscan. cbn [negb andb].
  destruct (N.leb_spec n maxUint64) as [Hn|Hn].
  - destruct (N.leb_spec (2 ^ 63) n) as [H|H]; unfold maxInt64; lia.
  - change (2 ^ 63 <=? maxUint64)%N with true. cbv iota.
    unfold maxUint64 in Hn. unfold maxInt64. lia.
Qed.

Lemma ParseInt10_itoa (n : N) : ParseInt10 (itoa n) = Z.min maxInt64 (Z.of_N n).
Proof.
  destruct (itoa_head n) as (c & r & Heq & Hc).
  apply ParseInt10_unsigned.
  - apply itoa_nonempty.
  - rewrite Heq, (split_sign_digit c r Hc). reflexivity.
  - rewrite Heq, (split_sign_digit c r Hc). cbn [snd]. rewrite <- Heq.
    apply ParseUint_itoa.
Qed.

Lemma ParseInt10_plus_itoa (n : N) :
  ParseInt10 (String "+"%char (itoa n)) = Z.min maxInt64 (Z.of_N n).
Proof.
  apply ParseInt10_unsigned; [discriminate|reflexivity|]. apply ParseUint_itoa.
Qed.

Lemma ParseInt10_minus_itoa (n : N) :
  ParseInt10 (String "-"%char (itoa n)) = Z.max minInt64 (- Z.of_N n).
Proof.
  unfold ParseInt10. cbn [String.eqb split_sign].
  rewrite ParseUint_itoa. cbn [negb andb].
  destruct (N.leb_spec n maxUint64) as [Hn|Hn].
  - destruct (N.ltb_spec (2 ^ 63) n) as [H|H]; unfold minInt64; lia.
  - change (2 ^ 63 <? maxUint64)%N with true. cbv iota.
    unfold maxUint64 in Hn. unfold minInt64. lia.
Qed.

Lemma ParseInt10_FormatInt (n : Z) :
  (minInt64 ≤ n ≤ maxInt64)%Z → ParseInt10 (FormatInt n) = n.
Proof.
  intros Hn. unfold FormatInt. destruct (Z.ltb_spec n 0).
  - rewrite ParseInt10_minus_itoa. lia.
  - rewrite ParseInt10_itoa. lia.
Qed.

(** *** [strings.TrimSpace] *)

Lemma TrimLeftSpace_spaces (ws s : string) :
  all_bytes isSpace ws = true → TrimLeftSpace (ws +:+ s) = TrimLeftSpace s.
Proof.
  induction ws as [|c ws IH]; simpl; [reflexivity|].
  rewrite andb_true_iff. intros [-> H]. apply IH, H.
Qed.

Lemma TrimRightSpace_all_spaces (ws : string) :
  all_bytes isSpace ws = true → TrimRightSpace ws = "".
Proof.
  induction ws as [|c ws IH]; simpl; [reflexivity|].
  rewrite andb_true_iff. intros [-> H]. rewrite (IH H). reflexivity.
Qed.

Lemma TrimRightSpace_spaces (s ws : string) :
  all_bytes isSpace ws = true → TrimRightSpace (s +:+ ws) = TrimRightSpace s.
Proof.
  intros H. induction s as [|c s IH]; simpl.
  - apply TrimRightSpace_all_spaces, H.
  - rewrite IH. reflexivity.
Qed.

Lemma TrimRightSpace_no_space (s : string) :
  all_bytes (fun c => negb (isSpace c)) s = true → TrimRightSpace s = s.
Proof.
  induction s as [|c s IH]; simpl; [reflexivity|].
  rewrite andb_true_iff, negb_true_iff. intros [Hc H]. rewrite (IH H), Hc.
  destruct s; reflexivity.
Qed.

Lemma TrimLeftSpace_no_space (s : string) :
  all_bytes (fun c => negb (isSpace c)) s = true → TrimLeftSpace s = s.
Proof.
  destruct s as [|c s]; simpl; [reflexivity|].
  rewrite andb_true_iff, negb_true_iff. intros [-> _]. reflexivity.
Qed.

Lemma TrimLeftSpace_all_spaces (ws : string) :
  all_bytes isSpace ws = true → TrimLeftSpace ws = "".
Proof.
  induction ws as [|c ws IH]; simpl; [reflexivity|].
  rewrite andb_true_iff. intros [-> H]. apply IH, H.
Qed.

(** White space around a text without white space is trimmed away. *)
Lemma TrimSpace_padded (ws1 s ws2 : string) :
  all_bytes isSpace ws1 = true → all_bytes isSpace ws2 = true →
  all_bytes (fun c => negb (isSpace c)) s = true →
  TrimSpace (ws1 +:+ s +:+ ws2) = s.
Proof.
  intros H1 H2 Hs. unfold TrimSpace.
  rewrite TrimLeftSpace_spaces by exact H1.
  destruct s as [|c s].
  - simpl. rewrite TrimLeftSpace_all_spaces by exact H2. reflexivity.
  - assert (TrimLeftSpace (String c s +:+ ws2) = String c s +:+ ws2) as ->.
    { simpl in *. apply andb_true_iff in Hs as [Hc _].
      apply negb_true_iff in Hc. rewrite Hc. reflexivity. }
    rewrite TrimRightSpace_spaces by exact H2.
    apply TrimRightSpace_no_space, Hs.
Qed.

Lemma all_bytes_impl (p q : ascii → bool) (s : string) :
  (∀ c, p c = true → q c = true) → all_bytes p s = true → all_bytes q s = true.
Proof.
  intros Hpq. induction s as [|c s IH]; simpl; [reflexivity|].
  rewrite !andb_true_iff. intros [Hc H]. auto.
Qed.

Lemma FormatInt_no_space (n : Z) :
  all_bytes (fun c => negb (isSpace c)) (FormatInt n) = true.
Proof.
  assert (∀ m, all_bytes (fun c => negb (isSpace c)) (itoa m) = true) as Hit.
  { intros m. apply (all_bytes_impl isDigit); [|apply all_bytes_itoa].
    intros c Hc. rewrite (isDigit_not_space c Hc). reflexivity. }
  unfold FormatInt. destruct (n <? 0)%Z; [simpl; rewrite Hit; reflexivity|apply Hit].
Qed.

Lemma FormatInt_not_true (n : Z) : String.eqb (FormatInt n) "true" = false.
Proof.
  unfold FormatInt. destruct (n <? 0)%Z; [reflexivity|].
  destruct (itoa_head (Z.to_N n)) as (c & r & -> & Hc).
  apply isDigit_cases in Hc. rewrite !elem_of_cons, elem_of_nil in Hc.
  repeat destruct Hc as [-> | Hc]; try reflexivity. contradiction.
Qed.

Lemma ParseInt10_no_digits (s : string) :
  (split_sign s).2 = "" → ParseInt10 s = 0%Z.
Proof.
  unfold ParseInt10. destruct (s =? ""); [reflexivity|].
  destruct (split_sign s) as [neg digits]. cbn [snd]. intros ->. reflexivity.
Qed.

Lemma digits_value_bound (s : string) (n : N) :
  all_bytes isDigit s = true →
  (digits_value s n + 1 ≤ (n + 1) * 10 ^ N.of_nat (String.length s))%N.
Proof.
  revert n. induction s as [|c s IH]; intros n Hs.
  - cbn. lia.
  - cbn [all_bytes] in Hs. apply andb_true_iff in Hs as [Hc Hs].
    pose proof (isDigit_value c Hc) as Hd.
    cbn [digits_value String.length]. specialize (IH (n * 10 + (N_of_ascii c - 48))%N Hs).
    rewrite Nat2N.inj_succ, N.pow_succ_r'.
    set (d := (N_of_ascii c - 48)%N) in *.
    set (p := (10 ^ N.of_nat (String.length s))%N) in *.
    etransitivity; [exact IH|]. nia.
Qed.

(** At most 19 digits write a number of 64 bits. *)
Lemma digits_value_length (s : string) :
  all_bytes isDigit s = true → (String.length s ≤ 19)%nat →
  (digits_value s 0 ≤ maxUint64)%N.
Proof.
  intros Hs Hlen. pose proof (digits_value_bound s 0 Hs) as H.
  assert (10 ^ N.of_nat (String.length s) ≤ 10 ^ 19)%N as Hp.
  { apply N.pow_le_mono_r; lia. }
  change (10 ^ 19)%N with 10000000000000000000%N in Hp.
  unfold maxUint64. lia.
Qed.

Lemma TrimSpace_no_space (s : string) :
  all_bytes (fun c => negb (isSpace c)) s = true → TrimSpace s = s.
Proof.
  intros H. unfold TrimSpace. rewrite TrimLeftSpace_no_space by exact H.
  apply TrimRightSpace_no_space, H.
Qed.

Lemma ToLower_FormatInt (n : Z) : ToLower (FormatInt n) = FormatInt n.
Proof.
  assert (∀ s, all_bytes isDigit s = true → ToLower s = s) as Hd.
  { induction s as [|c s IH]; simpl; [reflexivity|].
    rewrite andb_true_iff. intros [Hc Hs]. rewrite (IH Hs). f_equal.
    apply isDigit_cases in Hc. rewrite !elem_of_cons, elem_of_nil in Hc.
    repeat destruct Hc as [-> | Hc]; try reflexivity. contradiction. }
  unfold FormatInt. destruct (n <? 0)%Z.
  - cbn [ToLower]. rewrite Hd by apply all_bytes_itoa. reflexivity.
  - apply Hd, all_bytes_itoa.
Qed.

Lemma itoa_inj (n m : N) : itoa n = itoa m → n = m.
Proof.
  intros H. apply (f_equal (fun s => digits_value s 0)) in H.
  rewrite !digits_value_itoa in H. exact H.
Qed.

Lemma FormatInt_eqb_1 (n : Z) : String.eqb (FormatInt n) "1" = (n =? 1)%Z.
Proof.
  unfold FormatInt. destruct (Z.ltb_spec n 0) as [Hn|Hn].
  - simpl. symmetry. apply Z.eqb_neq. lia.
  - destruct (Z.eqb_spec n 1) as [->|Hne]; [reflexivity|].
    apply String.eqb_neq. intros Heq. apply (itoa_inj _ 1%N) in Heq. lia.
Qed.

Lemma FormatInt_head_cases (n : Z) :
  ∃ c r, FormatInt n = String c r ∧ (c = "-"%char ∨ isDigit c = true).
Proof.
  unfold FormatInt. destruct (n <? 0)%Z; [eauto|].
  destruct (itoa_head (Z.to_N n)) as (c & r & -> & Hc). eauto.
Qed.

Lemma FormatInt_not_word (n : Z) (c : ascii) (r : string) :
  isDigit c = false → c ≠ "-"%char → String.eqb (FormatInt n) (String c r) = false.
Proof.
  intros Hc Hm. apply String.eqb_neq. intros Heq.
  destruct (FormatInt_head_cases n) as (d & r' & Hd & [->|Hdig]);
    rewrite Hd in Heq; injection Heq as Hc' _; subst c; congruence.
Qed.

Lemma isSpace_lower_ascii (c : ascii) : isSpace (lower_ascii c) = isSpace c.
Proof. destruct c as [[] [] [] [] [] [] [] []]; reflexivity. Qed.

Lemma ToLower_no_space (s : string) :
  all_bytes (fun c => negb (isSpace c)) (ToLower s) = true →
  all_bytes (fun c => negb (isSpace c)) s = true.
Proof.
  induction s as [|c s IH]; simpl; [reflexivity|].
  rewrite isSpace_lower_ascii, !andb_true_iff. intros [Hc H]. auto.
Qed.

Section ConverterProperties.
Context {float64 float32 other : Type} `{!Runtime float64 float32 other}.
#[local] Abbreviation value := (value float64 float32 other).

(** An integer of 64 bits written by [ToString] is read back by [ToInt]
    and by [ToInt64], also with white space around the text. *)
Theorem ToInt_ToString_roundtrip (n : Z) (ws1 ws2 : string) :
  (minInt64 ≤ n ≤ maxInt64)%Z →
  all_bytes isSpace ws1 = true → all_bytes isSpace ws2 = true →
  Forall (fun v : value =>
            ToInt (VString (ws1 +:+ ToString v +:+ ws2)) = n ∧
            ToInt64 (VString (ws1 +:+ ToString v +:+ ws2)) = n)
         [VInt n; VInt64 n; VInt32 n].
Proof.
  intros Hn H1 H2.
  assert (ParseInt10 (TrimSpace (ws1 +:+ FormatInt n +:+ ws2)) = n) as Heq.
  { rewrite TrimSpace_padded by (try apply FormatInt_no_space; assumption).
    apply ParseInt10_FormatInt, Hn. }
  repeat constructor; exact Heq.
Qed.

(** A decimal numeral too large for 64 bits is read as the largest
    integer, one too small as the smallest: the range error of [strconv]
    is dropped and the bound it returns is kept.  A leading [+] is
    accepted. *)
Theorem ToInt_string_saturates (n : N) :
  ToInt (VString (itoa n)) = Z.min maxInt64 (Z.of_N n) ∧
  ToInt (VString (String "+"%char (itoa n))) = Z.min maxInt64 (Z.of_N n) ∧
  ToInt (VString (String "-"%char (itoa n))) = Z.max minInt64 (- Z.of_N n) ∧
  ToInt64 (VString (itoa n)) = ToInt (VString (itoa n)) ∧
  ToInt64 (VString (String "-"%char (itoa n))) =
    ToInt (VString (String "-"%char (itoa n))).
Proof.
  assert (all_bytes (fun c => negb (isSpace c)) (itoa n) = true) as Hit.
  { apply (all_bytes_impl isDigit); [|apply all_bytes_itoa].
    intros c Hc. rewrite (isDigit_not_space c Hc). reflexivity. }
  cbn [ToInt ToInt64].
  rewrite !TrimSpace_no_space by (try exact Hit; simpl; rewrite Hit; reflexivity).
  rewrite ParseInt10_itoa, ParseInt10_plus_itoa, ParseInt10_minus_itoa. tauto.
Qed.

(** A text that, white space and one sign taken off, is empty is read as
    0 by [ToInt] and [ToInt64].  So is one with a byte that is no decimal
    digit, when the digits before that byte write a number of 64 bits, as
    any 19 digits do: the syntax error of [strconv] is dropped.  When the
    digits before that byte write a larger number, [strconv] has returned
    the range error before it reads the byte, and the result is the
    largest integer, or the smallest after a minus sign.  The text is
    ASCII, where [TrimSpace] is the function of Go. *)
Theorem ToInt_string_syntax_error (s : string) :
  all_bytes isASCII s = true →
  ((split_sign (TrimSpace s)).2 = "" →
   ToInt (VString s) = 0%Z ∧ ToInt64 (VString s) = 0%Z) ∧
  (∀ (pre rest : string) (c : ascii),
     (split_sign (TrimSpace s)).2 = pre +:+ String c rest →
     all_bytes isDigit pre = true → isDigit c = false →
     ToInt (VString s)
     = (if (digits_value pre 0 <=? maxUint64)%N then 0%Z
        else if (split_sign (TrimSpace s)).1 then minInt64 else maxInt64) ∧
     ToInt64 (VString s) = ToInt (VString s) ∧
     ((String.length pre ≤ 19)%nat → ToInt (VString s) = 0%Z)).
Proof.
  intros _. cbn [ToInt ToInt64]. split.
  - intros Hd. apply ParseInt10_no_digits in Hd. auto.
  - intros pre rest c Hd Hpre Hc.
    assert (H : ParseInt10 (TrimSpace s)
                = (if (digits_value pre 0 <=? maxUint64)%N then 0%Z
                   else if (split_sign (TrimSpace s)).1 then minInt64 else maxInt64)).
    { unfold ParseInt10.
      destruct (String.eqb_spec (TrimSpace s) "") as [He|_].
      { rewrite He in Hd. cbn in Hd. destruct pre; discriminate Hd. }
      destruct (split_sign (TrimSpace s)) as [neg digits]. cbn [fst snd] in *.
      subst digits. unfold ParseUint.
      assert (pre +:+ String c rest ≠ "") as Hne by (destruct pre; discriminate).
      apply String.eqb_neq in Hne. rewrite Hne.
      rewrite ParseUint_loop_bad_byte by (try assumption; unfold maxUint64; lia).
      destruct (digits_value pre 0 <=? maxUint64)%N; [reflexivity|].
      destruct neg; reflexivity. }
    split; [exact H|]. split; [reflexivity|].
    intros Hlen. rewrite H.
    pose proof (digits_value_length pre Hpre Hlen) as Hv.
    apply N.leb_le in Hv. rewrite Hv. reflexivity.
Qed.

(** [ToInt] and [ToInt64] return the same integer for every value but a
    [float32]: [ToInt] converts that one, [ToInt64] has no case for it and
    parses the text [ToString] writes. *)
Theorem ToInt_ToInt64_agree (v : value) :
  match v with
  | VFloat32 f =>
      ToInt v = int_of_float32 f ∧ ToInt64 v = ParseInt10 (FormatFloat32 f)
  | _ => ToInt v = ToInt64 v
  end.
Proof. destruct v; cbn; auto. Qed.

(** [ToBool] of an [int] or [int64] tells whether it is not 0.  An [int32]
    has no case: it is written as text and compared with "true", so it
    gives false whatever it is.  The text of an integer gives true only
    for 1. *)
Theorem ToBool_of_integers (n : Z) :
  ToBool (VInt n) = negb (n =? 0)%Z ∧
  ToBool (VInt64 n) = negb (n =? 0)%Z ∧
  ToBool (VInt32 n) = false ∧
  ToBool (VString (ToString (VInt n))) = (n =? 1)%Z.
Proof.
  repeat split; try reflexivity.
  - apply FormatInt_not_true.
  - cbn [ToBool ToString].
    rewrite TrimSpace_no_space by apply FormatInt_no_space.
    rewrite ToLower_FormatInt, FormatInt_eqb_1.
    rewrite !FormatInt_not_word by (try reflexivity; discriminate).
    rewrite !orb_false_r. reflexivity.
Qed.

(** A truth value written by [ToString] is read back by [ToBool], in any
    letter case and with white space around it. *)
Theorem ToBool_ToString_roundtrip (b : bool) (ws1 ws2 s : string) :
  all_bytes isSpace ws1 = true → all_bytes isSpace ws2 = true →
  ToLower s = ToString (VBool b) →
  ToBool (VString (ws1 +:+ s +:+ ws2)) = b.
Proof.
  intros H1 H2 Hs. cbn [ToBool].
  rewrite TrimSpace_padded; try assumption.
  - rewrite Hs. destruct b; reflexivity.
  - apply (ToLower_no_space s). rewrite Hs. destruct b; reflexivity.
Qed.

End ConverterProperties.

Lemma ToInt_ToString_roundtrip_witness :
  ToInt (VString (" " +:+ ToString (VInt (-42)) +:+ newline) : value Z Z unit)
  = (-42)%Z.
Proof.
  assert (Hn : (minInt64 ≤ -42 ≤ maxInt64)%Z) by (unfold minInt64, maxInt64; lia).
  pose proof (ToInt_ToString_roundtrip (-42) " " newline Hn eq_refl eq_refl) as H.
  exact (proj1 (Forall_inv H)).
Defined.

Lemma ToInt_string_syntax_error_witness :
  ToInt (VString " 12a" : value Z Z unit) = 0%Z ∧
  ToInt64 (VString "+" : value Z Z unit) = 0%Z ∧
  ToInt (VString "99999999999999999999a" : value Z Z unit) = maxInt64 ∧
  ToInt (VString "-99999999999999999999a" : value Z Z unit) = minInt64.
Proof.
  split; [|split; [|split]].
  - exact (proj1 (proj2 (ToInt_string_syntax_error " 12a" eq_refl)
                    "12" "" "a"%char eq_refl eq_refl eq_refl)).
  - exact (proj2 (proj1 (ToInt_string_syntax_error "+" eq_refl) eq_refl)).
  - exact (proj1 (proj2 (ToInt_string_syntax_error "99999999999999999999a" eq_refl)
                    "99999999999999999999" "" "a"%char eq_refl eq_refl eq_refl)).
  - exact (proj1 (proj2 (ToInt_string_syntax_error "-99999999999999999999a" eq_refl)
                    "99999999999999999999" "" "a"%char eq_refl eq_refl eq_refl)).
Defined.

Lemma ToBool_ToString_roundtrip_witness :
  ToBool (VString (tab +:+ "True" +:+ " ") : value Z Z unit) = true.
Proof.
  exact (ToBool_ToString_roundtrip true tab " " "True" eq_refl eq_refl eq_refl).
Defined.

(** * Package [config] *)

(** ** [splitKey] *)

Lemma string_app_cons (c : ascii) (a b : string) :
  String c a +:+ b = String c (a +:+ b).
Proof. reflexivity. Qed.

Lemma string_app_nil_l (b : string) : "" +:+ b = b.
Proof. reflexivity. Qed.

Lemma string_length_app (a b : string) :
  String.length (a +:+ b) = (String.length a + String.length b)%nat.
Proof.
  induction a as [|c a IH]; [reflexivity|].
  rewrite string_app_cons. cbn [String.length]. rewrite IH. reflexivity.
Qed.

Lemma string_app_assoc (a b c : string) : (a +:+ b) +:+ c = a +:+ (b +:+ c).
Proof.
  induction a as [|x a IH]; [reflexivity|].
  rewrite !string_app_cons, IH. reflexivity.
Qed.

Lemma string_app_nil_r (a : string) : a +:+ "" = a.
Proof.
  induction a as [|x a IH]; [reflexivity|]. rewrite string_app_cons, IH. reflexivity.
Qed.

Lemma substring_app_l (pre suf : string) (start : nat) :
  (start ≤ String.length pre)%nat →
  substring start (String.length pre - start) (pre +:+ suf)
  = substring start (String.length pre - start) pre.
Proof.
  revert start. induction pre as [|a p IH]; intros start Hs.
  - simpl in Hs. assert (start = 0%nat) as -> by lia.
    rewrite string_app_nil_l. destruct suf; reflexivity.
  - rewrite string_app_cons. destruct start as [|k].
    + cbn [String.length Nat.sub substring]. f_equal.
      specialize (IH 0%nat). rewrite Nat.sub_0_r in IH. apply IH. lia.
    + cbn [String.length Nat.sub substring]. apply IH.
      simpl in Hs. lia.
Qed.

Lemma substring_snoc (pre : string) (c : ascii) (start : nat) :
  (start ≤ String.length pre)%nat →
  substring start (String.length (pre +:+ String c "") - start) (pre +:+ String c "")
  = substring start (String.length pre - start) pre +:+ String c "".
Proof.
  revert start. induction pre as [|a p IH]; intros start Hs.
  - simpl in Hs. assert (start = 0%nat) as -> by lia. reflexivity.
  - rewrite string_app_cons. destruct start as [|k].
    + cbn [String.length Nat.sub substring]. rewrite string_app_cons. f_equal.
      specialize (IH 0%nat). rewrite !Nat.sub_0_r in IH. apply IH. lia.
    + cbn [String.length Nat.sub substring]. apply IH.
      simpl in Hs. lia.
Qed.

Lemma substring_empty_iff (pre : string) (start : nat) :
  (start ≤ String.length pre)%nat →
  String.eqb (substring start (String.length pre - start) pre) ""
  = negb (Nat.ltb start (String.length pre)).
Proof.
  revert start. induction pre as [|a p IH]; intros start Hs.
  - simpl in Hs. assert (start = 0%nat) as -> by lia. reflexivity.
  - destruct start as [|k]; [reflexivity|].
    cbn [String.length Nat.sub substring]. rewrite IH by (simpl in Hs; lia).
    reflexivity.
Qed.

Lemma get_app_head (pre suf : string) (c : ascii) :
  String.get (String.length pre) (pre +:+ String c suf) = Some c.
Proof. exact (eq_sym (append_correct2 pre (String c suf) 0)). Qed.

(** The pieces of [strings.Split], the first one with [cur] before it. *)
Definition prepend (cur : string) (pieces : list string) : list string :=
  match pieces with
  | [] => [cur]
  | l :: ls => (cur +:+ l) :: ls
  end.

Definition nonempty (s : string) : bool := negb (String.eqb s "").

Lemma Split_nonnil (s : string) (sep : ascii) : Split s sep ≠ [].
Proof.
  intros H. apply (f_equal length) in H. rewrite length_Split in H. discriminate.
Qed.

Lemma filter_nonempty_cons (x : string) (l : list string) :
  filter (fun s => nonempty s = true) (x :: l)
  = if nonempty x then x :: filter (fun s => nonempty s = true) l
    else filter (fun s => nonempty s = true) l.
Proof.
  rewrite filter_cons. destruct (nonempty x); case_decide; congruence.
Qed.

Lemma nonempty_substring (pre : string) (start : nat) :
  (start ≤ String.length pre)%nat →
  nonempty (substring start (String.length pre - start) pre)
  = Nat.ltb start (String.length pre).
Proof.
  intros Hs. unfold nonempty. rewrite substring_empty_iff by exact Hs.
  apply negb_involutive.
Qed.

Lemma substring_end (s : string) : substring (String.length s) 0 s = "".
Proof. induction s; simpl; auto. Qed.

Lemma splitKey_loop_Split (suf pre : string) (parts : list string) (start : nat) :
  (start ≤ String.length pre)%nat →
  (foldl (config.splitKey_step (pre +:+ suf)) (parts, start)
     (seq (String.length pre) (String.length suf + 1))).1
  = (parts ++ filter (fun s => nonempty s = true)
                (prepend (substring start (String.length pre - start) pre)
                   (Split suf ".")))%list.
Proof.
  revert pre parts start. induction suf as [|c suf IH]; intros pre parts start Hs.
  - cbn [String.length Nat.add seq foldl Split prepend].
    unfold config.splitKey_step.
    rewrite !string_app_nil_r. rewrite Nat.eqb_refl. cbn [orb fst].
    rewrite filter_nonempty_cons, filter_nil, nonempty_substring by exact Hs.
    destruct (Nat.ltb start (String.length pre)); [reflexivity|].
    rewrite app_nil_r. reflexivity.
  - cbn [String.length Nat.add seq foldl].
    assert (Hkey : pre +:+ String c suf = (pre +:+ String c "") +:+ suf).
    { rewrite string_app_assoc. reflexivity. }
    assert (Hlen : S (String.length pre) = String.length (pre +:+ String c "")).
    { rewrite string_length_app. simpl. lia. }
    unfold config.splitKey_step at 2.
    assert (Nat.eqb (String.length pre) (String.length (pre +:+ String c suf)) = false)
      as ->.
    { apply Nat.eqb_neq. rewrite string_length_app. simpl. lia. }
    rewrite get_app_head. cbn [orb].
    pose proof (Split_nonnil suf ".") as Hne.
    cbn [Split]. destruct (Split suf ".") as [|l ls] eqn:HS; [congruence|].
    case_bool_decide as Hc.
    + injection Hc as ->.
      rewrite bool_decide_eq_true_2 by reflexivity.
      rewrite substring_app_l by exact Hs.
      rewrite Nat.add_1_r, Hlen, Hkey.
      rewrite IH by lia. rewrite Nat.sub_diag, substring_end.
      cbn [prepend]. rewrite string_app_nil_r, string_app_nil_l.
      rewrite (filter_nonempty_cons (substring _ _ _)).
      rewrite nonempty_substring by exact Hs.
      destruct (Nat.ltb start (String.length pre)).
      * rewrite <- app_assoc. reflexivity.
      * reflexivity.
    + rewrite Hlen, Hkey. rewrite IH by (rewrite <- Hlen; lia).
      rewrite substring_snoc by exact Hs.
      rewrite bool_decide_eq_false_2 by congruence.
      cbn [prepend]. rewrite string_app_assoc. reflexivity.
Qed.

Lemma splitKey_pieces (key : string) :
  config.splitKey key = filter (fun s => nonempty s = true) (Split key ".").
Proof.
  unfold config.splitKey.
  pose proof (splitKey_loop_Split key "" [] 0%nat (Nat.le_0_l _)) as H.
  rewrite string_app_nil_l in H. cbn [String.length Nat.sub substring app] in H.
  rewrite H. pose proof (Split_nonnil key ".").
  destruct (Split key "."); [congruence|reflexivity].
Qed.

Lemma Split_app_sep (a b : string) (sep : ascii) :
  Split (a +:+ String sep b) sep = (Split a sep ++ Split b sep)%list.
Proof.
  induction a as [|c a IH].
  - rewrite string_app_nil_l. cbn [Split].
    pose proof (Split_nonnil b sep). destruct (Split b sep); [congruence|].
    rewrite bool_decide_eq_true_2 by reflexivity. reflexivity.
  - rewrite string_app_cons. cbn [Split]. rewrite IH.
    pose proof (Split_nonnil a sep). destruct (Split a sep); [congruence|].
    cbn [app]. case_bool_decide; reflexivity.
Qed.

Lemma Split_no_sep (s : string) (sep : ascii) :
  count_byte s sep = 0%nat → Split s sep = [s].
Proof.
  induction s as [|c s IH]; [reflexivity|]. cbn [count_byte Split].
  case_bool_decide; [discriminate|]. intros H0. rewrite IH by exact H0. reflexivity.
Qed.

Lemma Split_pieces (s : string) (sep : ascii) :
  Forall (fun p => count_byte p sep = 0%nat) (Split s sep).
Proof.
  induction s as [|c s IH]; cbn [Split]; [repeat constructor|].
  destruct (Split s sep) as [|l ls]; [repeat constructor|].
  apply Forall_cons in IH as [Hl Hls].
  case_bool_decide as Hc.
  - repeat constructor; assumption.
  - constructor; [|assumption]. cbn [count_byte].
    rewrite bool_decide_eq_false_2 by exact Hc. exact Hl.
Qed.

Lemma nonempty_true (s : string) : nonempty s = true ↔ s ≠ "".
Proof.
  unfold nonempty. rewrite negb_true_iff. apply String.eqb_neq.
Qed.

Lemma splitKey_app (k1 k2 : string) :
  config.splitKey (k1 +:+ "." +:+ k2)
  = (config.splitKey k1 ++ config.splitKey k2)%list.
Proof.
  change ("." +:+ k2) with (String "."%char k2).
  rewrite !splitKey_pieces, Split_app_sep, filter_app. reflexivity.
Qed.

Lemma splitKey_part (p : string) : key_part p → config.splitKey p = [p].
Proof.
  intros [Hne Hdot]. rewrite splitKey_pieces, Split_no_sep by exact Hdot.
  rewrite filter_nonempty_cons, filter_nil.
  apply nonempty_true in Hne. rewrite Hne. reflexivity.
Qed.

Lemma splitKey_nil (key : string) :
  config.splitKey key = [] ↔ all_bytes is_dot key = true.
Proof.
  rewrite splitKey_pieces. induction key as [|c key IH]; [simpl; tauto|].
  cbn [Split all_bytes]. pose proof (Split_nonnil key ".") as Hne.
  destruct (Split key ".") as [|l ls]; [congruence|].
  unfold is_dot at 1. case_bool_decide as Hc.
  - rewrite filter_nonempty_cons. cbn [nonempty String.eqb negb andb]. exact IH.
  - rewrite filter_nonempty_cons. cbn [nonempty String.eqb negb andb].
    split; discriminate.
Qed.

(** [splitKey] gives the pieces of [strings.Split(key, ".")] that are not
    empty, in their order.  So its parts are not empty and hold no dot,
    and there is none exactly when the key is made of dots only, or is
    empty. *)
Theorem splitKey_Split (key : string) :
  config.splitKey key = filter (fun s => nonempty s = true) (Split key ".") ∧
  Forall key_part (config.splitKey key) ∧
  (config.splitKey key = [] ↔ all_bytes is_dot key = true).
Proof.
  split; [apply splitKey_pieces|]. split; [|apply splitKey_nil].
  rewrite splitKey_pieces. apply Forall_forall. intros p Hp.
  apply list_elem_of_filter in Hp as [Hne Hin]. split.
  - apply nonempty_true, Hne.
  - pose proof (Split_pieces key ".") as H. rewrite Forall_forall in H. auto.
Qed.

(** Parts that are not empty and hold no dot, joined by dots, are split
    into themselves; dots before, after and doubled between them change
    nothing. *)
Theorem splitKey_join (parts : list string) :
  Forall key_part parts →
  config.splitKey (join_dots parts) = parts ∧
  config.splitKey ("." +:+ join_dots parts +:+ ".") = parts ∧
  (∀ more : list string,
     Forall key_part more →
     config.splitKey (join_dots parts +:+ ".." +:+ join_dots more)
     = (parts ++ more)%list).
Proof.
  intros H.
  assert (Hj : ∀ l, Forall key_part l → config.splitKey (join_dots l) = l).
  { clear. intros l H. induction H as [|p l Hp Hl IH]; [reflexivity|].
    destruct l as [|q l]; [apply splitKey_part, Hp|].
    change (join_dots (p :: q :: l)) with (p +:+ "." +:+ join_dots (q :: l)).
    rewrite splitKey_app, IH, splitKey_part by exact Hp. reflexivity. }
  split; [apply Hj, H|]. split.
  - change ("." +:+ join_dots parts +:+ ".")
      with ("" +:+ "." +:+ (join_dots parts +:+ "." +:+ "")).
    rewrite !splitKey_app, Hj by exact H. cbn. apply app_nil_r.
  - intros more Hm.
    change (join_dots parts +:+ ".." +:+ join_dots more)
      with (join_dots parts +:+ "." +:+ ("" +:+ "." +:+ join_dots more)).
    rewrite !splitKey_app, !Hj by assumption. reflexivity.
Qed.

Lemma splitKey_join_witness :
  Forall key_part ["server"; "port"] ∧
  config.splitKey ("." +:+ join_dots ["server"; "port"] +:+ ".") = ["server"; "port"].
Proof.
  assert (H : Forall key_part ["server"; "port"]).
  { repeat constructor; discriminate. }
  split; [exact H|]. exact (proj1 (proj2 (splitKey_join _ H))).
Defined.

(** ** [getNested], [setNested], [Get] and [Set] *)

Section ConfigProperties.
Context {float64 float32 other : Type} `{!Runtime float64 float32 other}.
#[local] Abbreviation value := (value float64 float32 other).
#[local] Abbreviation Config := (@config.Config float64 float32 other).

Lemma getNested_loop_app (p1 p2 : list string) (v : value) :
  config.getNested_loop (p1 ++ p2) v
  = config.getNested_loop p1 v ≫= config.getNested_loop p2.
Proof.
  revert v. induction p1 as [|p p1 IH]; intros v; [reflexivity|].
  cbn [app config.getNested_loop].
  destruct v; try reflexivity.
  destruct (m !! p); [apply IH|reflexivity].
Qed.

Lemma getNested_loop_not_map (parts : list string) (v : value) :
  parts ≠ [] → (∀ m, v ≠ VMap m) → config.getNested_loop parts v = None.
Proof.
  intros Hp Hv. destruct parts as [|p parts]; [congruence|].
  destruct v; try reflexivity. exfalso. eapply Hv. reflexivity.
Qed.

Lemma string_app_not_empty (a b : string) : a ≠ "" → a +:+ b ≠ "".
Proof. destruct a; [congruence|]. rewrite string_app_cons. discriminate. Qed.

(** A key [k1.k2] is looked up by looking up [k1] and then [k2] in the
    map found there; when [k1] is missing, or holds a value that is not a
    map, the key is not found. *)
Theorem getNested_nested (m : gmap string value) (k1 k2 : string) :
  k1 ≠ "" → config.splitKey k2 ≠ [] →
  config.getNested m (k1 +:+ "." +:+ k2)
  = match config.getNested m k1 with
    | Some (VMap m') => config.getNested m' k2
    | _ => None
    end.
Proof.
  intros H1 H2. unfold config.getNested.
  assert (k2 ≠ "") as Hk2 by (intros ->; apply H2; reflexivity).
  apply String.eqb_neq in Hk2. rewrite Hk2.
  pose proof (string_app_not_empty k1 ("." +:+ k2) H1) as H12.
  apply String.eqb_neq in H12. rewrite H12.
  apply String.eqb_neq in H1. rewrite H1.
  rewrite splitKey_app, getNested_loop_app.
  destruct (config.getNested_loop (config.splitKey k1) (VMap m)) as [v|];
    [|reflexivity].
  cbn [mbind option_bind].
  destruct v; try (apply getNested_loop_not_map; [exact H2|discriminate]).
  reflexivity.
Qed.

(** The empty key is never found.  A key made of dots only is always
    found: its value is the whole map.  A key without a dot is looked up
    in the map itself. *)
Theorem getNested_edge_keys (m : gmap string value) :
  config.getNested m "" = None ∧
  (∀ key, key ≠ "" → all_bytes is_dot key = true →
          config.getNested m key = Some (VMap m)) ∧
  (∀ key, key_part key →
          config.getNested m key = m !! key) ∧
  (∀ key, config.getNested (∅ : gmap string value) key
          = if all_bytes is_dot key && nonempty key then Some (VMap ∅) else None).
Proof.
  split; [reflexivity|]. split; [|split].
  - intros key Hne Hd. unfold config.getNested.
    apply String.eqb_neq in Hne. rewrite Hne.
    apply splitKey_nil in Hd. rewrite Hd. reflexivity.
  - intros key Hp. unfold config.getNested.
    rewrite (splitKey_part key Hp). destruct Hp as [Hne _].
    apply String.eqb_neq in Hne. rewrite Hne. cbn.
    destruct (m !! key); reflexivity.
  - intros key. unfold config.getNested, nonempty.
    destruct (String.eqb_spec key "") as [->|Hne]; [reflexivity|].
    rewrite andb_true_r.
    destruct (all_bytes is_dot key) eqn:Hd.
    + apply splitKey_nil in Hd. rewrite Hd. reflexivity.
    + destruct (config.splitKey key) as [|p ps] eqn:Hs.
      * apply splitKey_nil in Hs. congruence.
      * cbn. rewrite lookup_empty. reflexivity.
Qed.

Lemma setNested_loop_cons (m : gmap string value) (p r : string) (rest : list string)
  (val : value) :
  config.setNested_loop m (p :: r :: rest) val
  = <[p := VMap (config.setNested_loop
                   match m !! p with
                   | Some (VMap next) => next
                   | _ => ∅
                   end (r :: rest) val)]> m.
Proof. reflexivity. Qed.

Lemma getNested_loop_cons (m : gmap string value) (p : string) (rest : list string) :
  config.getNested_loop (p :: rest) (VMap m)
  = match m !! p with
    | Some val => config.getNested_loop rest val
    | None => None
    end.
Proof. reflexivity. Qed.

Lemma getNested_setNested_loop (parts : list string) (m : gmap string value) (val : value) :
  parts ≠ [] →
  config.getNested_loop parts (VMap (config.setNested_loop m parts val)) = Some val.
Proof.
  revert m. induction parts as [|p rest IH]; intros m Hne; [congruence|].
  destruct rest as [|q rest].
  - cbn. rewrite lookup_insert_eq. reflexivity.
  - rewrite setNested_loop_cons, getNested_loop_cons.
    rewrite lookup_insert_eq. apply IH. discriminate.
Qed.

Lemma diverge_nonnil (l1 l2 : list string) :
  diverge l1 l2 = true → l1 ≠ [] ∧ l2 ≠ [].
Proof. destruct l1, l2; simpl; try discriminate. split; discriminate. Qed.

Lemma getNested_setNested_loop_other
  (parts parts' : list string) (m : gmap string value) (val : value) :
  diverge parts parts' = true →
  config.getNested_loop parts' (VMap (config.setNested_loop m parts val))
  = config.getNested_loop parts' (VMap m).
Proof.
  revert m parts'. induction parts as [|p rest IH]; intros m parts' Hd;
    [discriminate|].
  destruct parts' as [|q rest']; [discriminate|].
  cbn [diverge] in Hd. case_bool_decide as Hpq.
  - subst q. destruct (diverge_nonnil _ _ Hd) as [Hr Hr'].
    destruct rest as [|r rest]; [congruence|].
    rewrite setNested_loop_cons, !getNested_loop_cons.
    rewrite lookup_insert_eq. rewrite IH by exact Hd.
    assert (Hempty : config.getNested_loop rest' (VMap ∅ : value) = None).
    { destruct rest'; [congruence|].
      rewrite getNested_loop_cons, lookup_empty. reflexivity. }
    destruct (m !! p) as [v|] eqn:Hm; [|exact Hempty].
    destruct v; try reflexivity; rewrite Hempty; symmetry;
      apply getNested_loop_not_map; (assumption || discriminate).
  - assert (∀ x, config.getNested_loop (q :: rest') (VMap (<[p := x]> m))
                 = config.getNested_loop (q :: rest') (VMap m)) as Hx.
    { intros x. cbn [config.getNested_loop].
      rewrite lookup_insert_ne by exact Hpq. reflexivity. }
    destruct rest; cbn [config.setNested_loop]; apply Hx.
Qed.

Lemma getNested_setNested_loop_prefix
  (p1 p2 : list string) (m : gmap string value) (val : value) :
  p1 ≠ [] → p2 ≠ [] →
  ∃ m1, config.getNested_loop p1 (VMap (config.setNested_loop m (p1 ++ p2) val))
        = Some (VMap (config.setNested_loop m1 p2 val)).
Proof.
  intros H1 H2. revert m. induction p1 as [|p p1 IH]; intros m; [congruence|].
  destruct p1 as [|q p1].
  - destruct p2 as [|r p2]; [congruence|]. cbn [app].
    rewrite setNested_loop_cons, getNested_loop_cons, lookup_insert_eq.
    eexists. reflexivity.
  - cbn [app]. rewrite setNested_loop_cons, getNested_loop_cons, lookup_insert_eq.
    apply IH. discriminate.
Qed.

(** [setNested] on a key [k1.k2] makes [k1] hold a map, whatever it held
    before, a number or a text for one, and that map holds the value at
    [k2].  On a key without a part, one made of dots only or the empty
    one, it does nothing.  The maps are each held under one key only. *)
Theorem setNested_on_path (m : gmap string value) (k1 k2 : string) (val : value) :
  config.splitKey k1 ≠ [] → config.splitKey k2 ≠ [] →
  (∃ m', config.getNested (config.setNested m (k1 +:+ "." +:+ k2) val) k1
         = Some (VMap m') ∧
         config.getNested m' k2 = Some val) ∧
  (∀ key, all_bytes is_dot key = true → config.setNested m key val = m).
Proof.
  intros H1 H2. split.
  - unfold config.getNested, config.setNested. rewrite splitKey_app.
    destruct (String.eqb_spec k1 "") as [->|_]; [exfalso; apply H1; reflexivity|].
    destruct (String.eqb_spec k2 "") as [->|_]; [exfalso; apply H2; reflexivity|].
    destruct (getNested_setNested_loop_prefix _ _ m val H1 H2) as [m1 Hm1].
    exists (config.setNested_loop m1 (config.splitKey k2) val). split; [exact Hm1|].
    apply getNested_setNested_loop, H2.
  - intros key Hd. unfold config.setNested.
    apply splitKey_nil in Hd. rewrite Hd. reflexivity.
Qed.

Lemma value_size_lookup (m : gmap string value) (k : string) (v : value) :
  m !! k = Some v → (value_size v < value_size (VMap m))%nat.
Proof.
  intros Hk. rewrite <- (insert_delete_id m k v Hk). cbn [value_size].
  rewrite map_fold_insert_L.
  - lia.
  - intros. lia.
  - apply lookup_delete_eq.
Qed.

Lemma value_ind_maps (P : value → Prop) :
  (∀ v, (∀ m, v = VMap m → map_Forall (fun _ => P) m) → P v) → ∀ v, P v.
Proof.
  intros Hstep v. remember (value_size v) as n eqn:Hn. revert v Hn.
  induction n as [n IH] using lt_wf_ind. intros v ->.
  apply Hstep. intros m -> k w Hk. apply (IH (value_size w)); [|reflexivity].
  apply (value_size_lookup m k w Hk).
Qed.

Lemma deepCopy_value_id (v : value) : config.deepCopy_value v = v.
Proof.
  induction v as [v IH] using value_ind_maps.
  destruct v; try reflexivity. cbn [config.deepCopy_value]. f_equal.
  apply map_eq. intros k. rewrite lookup_fmap.
  destruct (m !! k) as [w|] eqn:Hk; [|reflexivity].
  cbn. f_equal. exact (IH m eq_refl k w Hk).
Qed.

Lemma deepCopy_id (m : gmap string value) : config.deepCopy m = m.
Proof.
  unfold config.deepCopy. apply map_eq. intros k. rewrite lookup_fmap.
  destruct (m !! k); [|reflexivity]. cbn. rewrite deepCopy_value_id. reflexivity.
Qed.

End ConfigProperties.

(** ** Environment overrides *)

Lemma upper_ascii_idemp (c : ascii) : upper_ascii (upper_ascii c) = upper_ascii c.
Proof. destruct c as [[] [] [] [] [] [] [] []]; reflexivity. Qed.

Lemma upper_ascii_dot (c : ascii) :
  bool_decide (upper_ascii c = "."%char) = bool_decide (c = "."%char).
Proof. destruct c as [[] [] [] [] [] [] [] []]; reflexivity. Qed.

Lemma upper_ascii_underscore (c : ascii) :
  Ascii.eqb (upper_ascii c) "_" = Ascii.eqb c "_".
Proof. destruct c as [[] [] [] [] [] [] [] []]; reflexivity. Qed.

Lemma ToUpper_idemp (s : string) : ToUpper (ToUpper s) = ToUpper s.
Proof.
  induction s as [|c s IH]; [reflexivity|]. cbn [ToUpper].
  rewrite upper_ascii_idemp, IH. reflexivity.
Qed.

Lemma ToUpper_app (a b : string) : ToUpper (a +:+ b) = ToUpper a +:+ ToUpper b.
Proof.
  induction a as [|c a IH]; [reflexivity|].
  rewrite string_app_cons. cbn [ToUpper]. rewrite string_app_cons, IH. reflexivity.
Qed.

Lemma ToUpper_ReplaceAll (s : string) :
  ToUpper (ReplaceAll (ToUpper s) "." "_") = ToUpper (ReplaceAll s "." "_").
Proof.
  induction s as [|c s IH]; [reflexivity|]. cbn [ToUpper ReplaceAll].
  rewrite IH, upper_ascii_dot. case_bool_decide; [reflexivity|].
  rewrite upper_ascii_idemp. reflexivity.
Qed.

Lemma ReplaceAll_idemp (s : string) :
  ReplaceAll (ReplaceAll s "." "_") "." "_" = ReplaceAll s "." "_".
Proof.
  induction s as [|c s IH]; [reflexivity|]. cbn [ReplaceAll]. rewrite IH.
  destruct (bool_decide (c = "."%char)) eqn:Hc; [reflexivity|].
  rewrite Hc. reflexivity.
Qed.

Lemma length_ToUpper (s : string) : String.length (ToUpper s) = String.length s.
Proof. induction s as [|c s IH]; simpl; congruence. Qed.

Lemma substring_ToUpper (n m : nat) (s : string) :
  substring n m (ToUpper s) = ToUpper (substring n m s).
Proof.
  revert n m. induction s as [|c s IH]; intros [|n] [|m]; simpl; try reflexivity.
  - rewrite IH. reflexivity.
  - apply IH.
  - apply IH.
Qed.

Lemma ToUpper_eqb_underscore (x : string) :
  String.eqb (ToUpper x) "_" = String.eqb x "_".
Proof.
  destruct x as [|c [|d x]]; try reflexivity; cbn [ToUpper String.eqb].
  - rewrite upper_ascii_underscore. reflexivity.
  - rewrite upper_ascii_underscore. reflexivity.
Qed.

Lemma HasSuffix_ToUpper (p : string) :
  HasSuffix (ToUpper p) "_" = HasSuffix p "_".
Proof.
  unfold HasSuffix. rewrite length_ToUpper, substring_ToUpper.
  rewrite ToUpper_eqb_underscore. reflexivity.
Qed.

Lemma TrimSuffix_app_underscore (s : string) : TrimSuffix (s +:+ "_") "_" = s.
Proof.
  unfold TrimSuffix, HasSuffix. rewrite string_length_app.
  cbn [String.length]. replace (String.length s + 1 - 1)%nat with (String.length s) by lia.
  assert (substring (String.length s) 1 (s +:+ "_") = "_") as ->.
  { induction s as [|c s IH]; [reflexivity|]. rewrite string_app_cons. exact IH. }
  assert (substring 0 (String.length s) (s +:+ "_") = s) as ->.
  { induction s as [|c s IH]; [reflexivity|]. rewrite string_app_cons.
    cbn [String.length substring]. rewrite IH. reflexivity. }
  replace (Nat.leb 1 (String.length s + 1)) with true
    by (symmetry; apply Nat.leb_le; lia).
  reflexivity.
Qed.

Lemma ToUpper_not_empty (p : string) : p ≠ "" → ToUpper p ≠ "".
Proof. destruct p; [congruence|discriminate]. Qed.

Section EnvironmentProperties.
Context {float64 float32 other : Type} `{!Runtime float64 float32 other}.
#[local] Abbreviation value := (value float64 float32 other).
#[local] Abbreviation Config := (@config.Config float64 float32 other).

Lemma envPrefix_New_WithEnvPrefix (p : string) :
  config.envPrefix (config.New [config.WithEnvPrefix p] : Config)
  = TrimSuffix (ToUpper p) "_".
Proof. reflexivity. Qed.

(** A prefix is put in capital letters and loses one underscore at its
    end: [p], [p] in capitals and [p] with an underscore after it name
    the same variables, those of the README: the prefix, an underscore,
    and the key in capitals with its dots turned into underscores.  The
    prefix and the key are ASCII, where [ToUpper] is the function of Go. *)
Theorem envKey_of_prefix (p key : string) :
  all_bytes isASCII p = true → all_bytes isASCII key = true →
  p ≠ "" → HasSuffix p "_" = false →
  Forall (fun q =>
            config.envKey (config.New [config.WithEnvPrefix q] : Config) key
            = ToUpper p +:+ "_" +:+ ToUpper (ReplaceAll key "." "_"))
         [p; ToUpper p; p +:+ "_"].
Proof.
  intros _ _ Hne Hsuf.
  assert (Hp : ∀ q, TrimSuffix (ToUpper q) "_" = ToUpper p →
            config.envKey (config.New [config.WithEnvPrefix q] : Config) key
            = ToUpper p +:+ "_" +:+ ToUpper (ReplaceAll key "." "_")).
  { intros q Hq. unfold config.envKey. rewrite envPrefix_New_WithEnvPrefix, Hq.
    pose proof (ToUpper_not_empty p Hne) as Hu. apply String.eqb_neq in Hu.
    rewrite Hu. reflexivity. }
  assert (Hq : TrimSuffix (ToUpper p) "_" = ToUpper p).
  { unfold TrimSuffix. rewrite HasSuffix_ToUpper, Hsuf. reflexivity. }
  repeat constructor; apply Hp.
  - exact Hq.
  - rewrite ToUpper_idemp. exact Hq.
  - rewrite ToUpper_app. apply TrimSuffix_app_underscore.
Qed.

Lemma envKey_variants (c : Config) (key : string) :
  config.envKey c (ToUpper key) = config.envKey c key ∧
  config.envKey c (ReplaceAll key "." "_") = config.envKey c key.
Proof.
  unfold config.envKey. rewrite ToUpper_ReplaceAll, ReplaceAll_idemp. auto.
Qed.

Section WithEnvironment.
Variable env : gmap string string.

(** With a prefix set, a variable of the environment is the value of its
    key, whatever the map holds and also when the map lacks the key; the
    value is the text of the variable.  The key in capitals and the key
    with underscores for dots read the same variable.  The key is ASCII,
    where [ToUpper] is the function of Go. *)
Theorem Get_env_override (c : Config) (key s : string) :
  all_bytes isASCII key = true →
  config.envPrefix c ≠ "" →
  env !! config.envKey c key = Some s →
  Forall (fun k =>
            config.Get env c k = Some (VString s) ∧
            config.Has env c k = true ∧
            config.GetString env c k = s)
         [key; ToUpper key; ReplaceAll key "." "_"].
Proof.
  intros _ Hp He.
  assert (Hk : ∀ k, config.envKey c k = config.envKey c key →
                    config.Get env c k = Some (VString s)).
  { intros k Hk. unfold config.Get. apply String.eqb_neq in Hp.
    rewrite Hp, Hk, He. reflexivity. }
  destruct (envKey_variants c key) as [H1 H2].
  repeat constructor;
    unfold config.Has, config.GetString; rewrite Hk by auto; reflexivity.
Qed.

(** An integer written in a variable of the environment, also with white
    space around it, is what [GetInt] and [GetInt64] return for its key.
    The key is ASCII, where [ToUpper] is the function of Go. *)
Theorem GetInt_from_env (c : Config) (key ws1 ws2 : string) (n : Z) :
  all_bytes isASCII key = true →
  config.envPrefix c ≠ "" →
  env !! config.envKey c key = Some (ws1 +:+ FormatInt n +:+ ws2) →
  (minInt64 ≤ n ≤ maxInt64)%Z →
  all_bytes isSpace ws1 = true → all_bytes isSpace ws2 = true →
  config.GetInt env c key = n ∧ config.GetInt64 env c key = n.
Proof.
  intros _ Hp He Hn H1 H2.
  assert (config.Get env c key = Some (VString (ws1 +:+ FormatInt n +:+ ws2))) as Hg.
  { unfold config.Get. apply String.eqb_neq in Hp. rewrite Hp, He. reflexivity. }
  unfold config.GetInt, config.GetInt64. rewrite Hg. cbn [default from_option id ToInt ToInt64].
  rewrite TrimSpace_padded by (try apply FormatInt_no_space; assumption).
  rewrite ParseInt10_FormatInt by exact Hn. auto.
Qed.

(** A configuration made from a map reads as the map does when no prefix
    is given, and when the prefix is empty or one underscore: then the
    environment is never read.  From the [nil] map it reads as the empty
    map. *)
Theorem FromMap_Get_without_prefix (m : gmap string value) (key : string) :
  config.Get env (config.FromMap (Some m) []) key = config.getNested m key ∧
  config.Get env (config.FromMap (Some m) [config.WithEnvPrefix ""]) key
  = config.getNested m key ∧
  config.Get env (config.FromMap (Some m) [config.WithEnvPrefix "_"]) key
  = config.getNested m key ∧
  config.Get env (config.FromMap None []) key
  = config.getNested (∅ : gmap string value) key.
Proof.
  unfold config.Get, config.FromMap. cbn [config.envPrefix config.data default].
  rewrite !deepCopy_id. repeat split.
Qed.

(** After [Set], [Get] returns the value set, for a key with a part and
    no variable of the environment over it, in a configuration whose maps
    are each held under one key only.  The key is ASCII, where [ToUpper]
    is the function of Go and the variable is the one the code reads. *)
Theorem Set_Get (c : Config) (key : string) (val : value) :
  all_bytes isASCII key = true →
  config.splitKey key ≠ [] →
  config.envPrefix c = "" ∨ env !! config.envKey c key = None →
  config.Get env (config.Set_ c key val) key = Some val.
Proof.
  intros _ Hparts Henv.
  assert (Hg : config.getNested (config.setNested (config.data c) key val) key
               = Some val).
  { unfold config.getNested, config.setNested.
    destruct (String.eqb_spec key "") as [->|_]; [exfalso; apply Hparts; reflexivity|].
    apply getNested_setNested_loop, Hparts. }
  unfold config.Get, config.Set_. cbn [config.envPrefix config.data].
  change (config.envKey (config.mkConfig _ (config.envPrefix c)) key)
    with (config.envKey c key).
  destruct Henv as [-> | ->]; [exact Hg|].
  destruct (negb _); exact Hg.
Qed.

(** [Set] leaves the value of every key whose path parts ways with the
    path of the key set, in a configuration whose maps are each held under
    one key only. *)
Theorem Set_Get_other (c : Config) (key key' : string) (val : value) :
  diverge (config.splitKey key) (config.splitKey key') = true →
  config.Get env (config.Set_ c key val) key' = config.Get env c key'.
Proof.
  intros Hd.
  assert (Hg : config.getNested (config.setNested (config.data c) key val) key'
               = config.getNested (config.data c) key').
  { unfold config.getNested, config.setNested.
    destruct (String.eqb key' ""); [reflexivity|].
    apply getNested_setNested_loop_other, Hd. }
  unfold config.Get, config.Set_. cbn [config.envPrefix config.data].
  change (config.envKey (config.mkConfig _ (config.envPrefix c)) key')
    with (config.envKey c key').
  rewrite Hg. reflexivity.
Qed.

End WithEnvironment.
End EnvironmentProperties.

Lemma envKey_of_prefix_witness :
  config.envKey
    (config.New [config.WithEnvPrefix "app_"] : @config.Config Z Z unit)
    "log.level" = "APP_LOG_LEVEL".
Proof.
  assert (H : "app" ≠ "") by discriminate.
  exact (Forall_inv (Forall_inv_tail (Forall_inv_tail
           (envKey_of_prefix "app" "log.level" eq_refl eq_refl H eq_refl)))).
Defined.

Lemma getNested_nested_witness :
  config.getNested
    ({[ "server" := VMap {[ "port" := VInt 8080 ]} ]} : gmap string (value Z Z unit))
    ("server" +:+ "." +:+ "port") = Some (VInt 8080).
Proof.
  assert (H1 : "server" ≠ "") by discriminate.
  assert (H2 : config.splitKey "port" ≠ []) by (vm_compute; discriminate).
  rewrite (getNested_nested _ "server" "port" H1 H2). reflexivity.
Defined.

Lemma setNested_on_path_witness :
  ∃ m' : gmap string (value Z Z unit),
    config.getNested
      (config.setNested {[ "server" := VInt 1 ]} ("server" +:+ "." +:+ "port") (VInt 8080))
      "server" = Some (VMap m') ∧
    config.getNested m' "port" = Some (VInt 8080).
Proof.
  assert (H1 : config.splitKey "server" ≠ []) by (vm_compute; discriminate).
  assert (H2 : config.splitKey "port" ≠ []) by (vm_compute; discriminate).
  exact (proj1 (setNested_on_path {[ "server" := VInt 1 ]} "server" "port"
                  (VInt 8080) H1 H2)).
Defined.

Lemma Get_env_override_witness :
  config.Get {[ "APP_LOG_LEVEL" := "debug" ]}
    (config.FromMap (Some ∅) [config.WithEnvPrefix "app"] : @config.Config Z Z unit)
    "log.level" = Some (VString "debug").
Proof.
  assert (H : config.envPrefix
                (config.FromMap (Some ∅) [config.WithEnvPrefix "app"]
                 : @config.Config Z Z unit) ≠ "")
    by (vm_compute; discriminate).
  exact (proj1 (Forall_inv
           (Get_env_override {[ "APP_LOG_LEVEL" := "debug" ]} _ "log.level" "debug"
              eq_refl H eq_refl))).
Defined.

Lemma GetInt_from_env_witness :
  config.GetInt {[ "APP_SERVER_PORT" := " 8080" ]}
    (config.FromMap (Some ∅) [config.WithEnvPrefix "app"] : @config.Config Z Z unit)
    "server.port" = 8080%Z.
Proof.
  assert (H : config.envPrefix
                (config.FromMap (Some ∅) [config.WithEnvPrefix "app"]
                 : @config.Config Z Z unit) ≠ "")
    by (vm_compute; discriminate).
  assert (Hn : (minInt64 ≤ 8080 ≤ maxInt64)%Z) by (unfold minInt64, maxInt64; lia).
  exact (proj1 (GetInt_from_env {[ "APP_SERVER_PORT" := " 8080" ]} _ "server.port"
                  " " "" 8080 eq_refl H eq_refl Hn eq_refl eq_refl)).
Defined.

Lemma Set_Get_witness :
  config.Get {[ "APP_LOG_LEVEL" := "debug" ]}
    (config.Set_ (config.New [config.WithEnvPrefix "app"] : @config.Config Z Z unit)
       "new.key" (VString "value")) "new.key"
  = Some (VString "value").
Proof.
  assert (H : config.splitKey "new.key" ≠ []) by (vm_compute; discriminate).
  exact (Set_Get {[ "APP_LOG_LEVEL" := "debug" ]}
           (config.New [config.WithEnvPrefix "app"]) "new.key" (VString "value")
           eq_refl H (or_intror eq_refl)).
Defined.

Lemma Set_Get_other_witness :
  config.Get ∅
    (config.Set_ (config.FromMap (Some {[ "log" := VMap {[ "level" := VString "info" ]} ]}) []
                  : @config.Config Z Z unit)
       "log.mode" (VString "json")) "log.level"
  = Some (VString "info").
Proof.
  rewrite (Set_Get_other ∅ _ "log.mode" "log.level" (VString "json") eq_refl).
  reflexivity.
Defined.

(** * Package [respond] *)

Lemma package_option_keeps_InternalMsg (o : Option) :
  package_option o → keeps_InternalMsg o.
Proof. intros [] e; reflexivity. Qed.

Lemma apply_options_keeps_InternalMsg (opts : list Option) (e : AppError) :
  Forall keeps_InternalMsg opts → InternalMsg (apply_options opts e) = InternalMsg e.
Proof.
  intros H. revert e. induction H as [|o opts Ho _ IH]; intros e; [reflexivity|].
  rewrite apply_options_cons, IH. apply Ho.
Qed.

Section RespondProperties.
Context {Data W : Type}.
Variable WriteHeader : Z → W → W.
Variable Header_Set : string → string → W → W.
Variable Encode : respond.Response Data → W → W * option string.
Variable env : Env.

#[local] Abbreviation toJSON := (respond.toJSON Data W WriteHeader Header_Set Encode env).
#[local] Abbreviation Error := (respond.Error Data W WriteHeader Header_Set Encode env).

(** [Error] answers with the internal message of the error, not with its
    user message: for an error made by [New] with an internal message and
    the options of the package, the message of the response is that
    internal message, and the status is that of the kind of the error. *)
Theorem Error_sends_internal_message
  (env' : Env) (rw : W) (code internalMsg userMsg : string) (opts : list Option) :
  Forall package_option opts → internalMsg ≠ "" →
  Error rw (Some (New env' code internalMsg userMsg opts))
  = Some (toJSON rw
            (kindToHTTPStatus (Kind (New env' code internalMsg userMsg opts)))
            None internalMsg true).
Proof.
  intros Hopts Hne. unfold respond.Error, HTTPStatus. do 3 f_equal.
  unfold AppError_Error.
  assert (InternalMsg (New env' code internalMsg userMsg opts) = internalMsg) as ->.
  { unfold New. rewrite apply_options_keeps_InternalMsg.
    - destruct (userMsg =? ""); reflexivity.
    - eapply Forall_impl; [exact Hopts|]. apply package_option_keeps_InternalMsg. }
  apply String.eqb_neq in Hne. rewrite Hne. reflexivity.
Qed.

(** When the encoder fails, [toJSON] returns an internal error, of status
    500, whose internal message and user message are both the text of the
    error of the encoder: that text, when it is not empty, is what
    [PublicError] shows.  When the encoder succeeds, it returns no error. *)
Theorem toJSON_encoder_error
  (rw : W) (status : Z) (data : option Data) (message : string) (isError : bool) :
  match (toJSON rw status data message isError).2 with
  | Some e =>
      ∃ err, (Encode (respond.mkResponse Data status data isError message)
                (Header_Set "Content-Type" "application/json" (WriteHeader status rw))).2
             = Some err ∧
             Code e = CodeInternal ∧ HTTPStatus e = 500%Z ∧
             InternalMsg e = err ∧ UserMsg e = err ∧
             PublicError (Some (Err_AppError e))
             = if err =? "" then "an error occurred" else err
  | None =>
      (Encode (respond.mkResponse Data status data isError message)
         (Header_Set "Content-Type" "application/json" (WriteHeader status rw))).2
      = None
  end.
Proof.
  unfold respond.toJSON.
  destruct (Encode _ _) as [rw' [err|]]; cbn [snd]; [|reflexivity].
  exists err. repeat split.
  cbn. destruct (err =? ""); reflexivity.
Qed.

End RespondProperties.

Lemma Error_sends_internal_message_witness :
  respond.Error unit (list (call unit)) record_WriteHeader record_Header_Set
    record_Encode (mkEnv zeroTime "") []
    (Some (New (mkEnv zeroTime "") CodeNotFound "row 7 of table users missing"
             "user not found" [WithTraceID "t-1"]))
  = Some ([call_Encode
             (respond.mkResponse unit 404 None true "row 7 of table users missing");
           call_Header_Set "Content-Type" "application/json";
           call_WriteHeader 404], None).
Proof.
  assert (H : Forall package_option [WithTraceID "t-1"]) by (repeat constructor).
  assert (H' : "row 7 of table users missing" ≠ "") by discriminate.
  rewrite (Error_sends_internal_message record_WriteHeader record_Header_Set
             record_Encode (mkEnv zeroTime "") (mkEnv zeroTime "") []
             CodeNotFound "row 7 of table users missing" "user not found"
             [WithTraceID "t-1"] H H').
  reflexivity.
Defined.
